(** * dsync/ddb/sync: a distributed mutex kept in a DynamoDB item

    Shallow embedding of [ddb/sync/sync.go] (the version with expiry,
    [WithTimeout] and the typed value accessors).  The Go program is
    embedded as state-passing functions over an explicit [World]
    (clock, random source, DynamoDB table, log of the requests issued);
    a Go panic is an explicit outcome.  The DynamoDB service and the Go
    package [strconv] are external to the repository: they are modelled
    after their documented behaviour, in [Module DynamoDB] and
    [Module strconv]. *)

From Stdlib Require Import ZArith Lia List Ascii String Bool.
From stdpp Require Import gmap strings list fin_maps.

Local Open Scope Z_scope.

(** ** Machine integers *)

(** Go's [int64] and [uint64] are embedded in [Z]; wrap-around is written
    out where the program does arithmetic on them. *)
Definition min_int64 : Z := - 2 ^ 63.
Definition max_int64 : Z := 2 ^ 63 - 1.
Definition max_uint64 : Z := 2 ^ 64 - 1.

Definition in_int64 (z : Z) : Prop := min_int64 <= z <= max_int64.

Definition wrap64 (z : Z) : Z := (z + 2 ^ 63) mod 2 ^ 64 - 2 ^ 63.

(** [time.Duration] is an [int64] count of nanoseconds. *)
Definition Millisecond : Z := 1000000.
Definition Second : Z := 1000000000.

(** ** Go's strconv, base 10 and 64 bits *)

Module strconv.

Inductive Err := ErrSyntax | ErrRange.

(** [*strconv.NumError]: the failing function, the input, the reason. *)
Record NumError := { Func : string; Num : string; Reason : Err }.

Definition syntaxError (fn str : string) : NumError :=
  {| Func := fn; Num := str; Reason := ErrSyntax |}.
Definition rangeError (fn str : string) : NumError :=
  {| Func := fn; Num := str; Reason := ErrRange |}.

Definition byte_of (c : ascii) : Z := Z.of_N (N_of_ascii c).

Definition lower (c : Z) : Z := Z.lor c 32.

(** The digit a byte stands for in [ParseUint]: decimal digits, then
    letters for the bases above ten; [None] is a syntax error. *)
Definition digit_val (c : Z) : option Z :=
  if (48 <=? c) && (c <=? 57) then Some (c - 48)
  else if (97 <=? lower c) && (lower c <=? 122) then Some (lower c - 97 + 10)
  else None.

(** Smallest number such that [cutoff * 10 > max_uint64]. *)
Definition cutoff10 : Z := max_uint64 / 10 + 1.

(** The loop of [ParseUint] over the bytes of the input, [n] being the
    value read so far ([s0] is the whole input, for the error). *)
Fixpoint parse_loop (s0 : string) (n : Z) (s : string) : Z * option NumError :=
  match s with
  | EmptyString => (n, None)
  | String c rest =>
      match digit_val (byte_of c) with
      | None => (0, Some (syntaxError "ParseUint" s0))
      | Some d =>
          if 10 <=? d then (0, Some (syntaxError "ParseUint" s0))
          else if cutoff10 <=? n then (max_uint64, Some (rangeError "ParseUint" s0))
          else
            let n10 := (n * 10) mod 2 ^ 64 in
            let n1 := (n10 + d) mod 2 ^ 64 in
            if (n1 <? n10) || (max_uint64 <? n1)
            then (max_uint64, Some (rangeError "ParseUint" s0))
            else parse_loop s0 n1 rest
      end
  end.

(** [strconv.ParseUint(s, 10, 64)] *)
Definition ParseUint (s : string) : Z * option NumError :=
  match s with
  | EmptyString => (0, Some (syntaxError "ParseUint" s))
  | _ => parse_loop s 0 s
  end.

(** [strconv.ParseInt(s, 10, 64)] *)
Definition ParseInt (s0 : string) : Z * option NumError :=
  match s0 with
  | EmptyString => (0, Some (syntaxError "ParseInt" s0))
  | String c rest =>
      let neg := Ascii.eqb c "-" in
      let s := if Ascii.eqb c "+" || neg then rest else s0 in
      let cutoff := 2 ^ 63 in
      match ParseUint s with
      | (_, Some {| Reason := ErrSyntax |}) => (0, Some (syntaxError "ParseInt" s0))
      | (un, _) =>
          if negb neg && (cutoff <=? un) then (cutoff - 1, Some (rangeError "ParseInt" s0))
          else if neg && (cutoff <? un) then (- cutoff, Some (rangeError "ParseInt" s0))
          else (if neg then wrap64 (- wrap64 un) else wrap64 un, None)
      end
  end.

Definition digit_char (d : Z) : ascii := ascii_of_N (Z.to_N (48 + d)).

(** The digits of [u], most significant first, put before [acc]; at most
    [fuel] of them (a [uint64] has at most twenty). *)
Fixpoint format_loop (fuel : nat) (u : Z) (acc : string) : string :=
  match fuel with
  | O => acc
  | S fuel' =>
      let acc' := String (digit_char (u mod 10)) acc in
      if u <? 10 then acc' else format_loop fuel' (u / 10) acc'
  end.

(** [strconv.FormatUint(u, 10)] *)
Definition FormatUint (u : Z) : string := format_loop 20 u EmptyString.

(** [strconv.FormatInt(i, 10)]: the digits of the magnitude (computed on
    [uint64], so that the least [int64] has one), after a minus sign for a
    negative number. *)
Definition FormatInt (i : Z) : string :=
  if i <? 0 then String "-" (FormatUint ((- i) mod 2 ^ 64)) else FormatUint (i mod 2 ^ 64).

End strconv.

(** ** Go errors *)

(** The errors the program meets: an [awserr.Error] with its code, and a
    plain error ([errors.New], or any other non-AWS error). *)
Inductive error :=
| awserr (code : string)
| errorString (msg : string).

(** ** The DynamoDB service, as far as the program uses it *)

Module DynamoDB.

Definition ErrCodeConditionalCheckFailedException : string := "ConditionalCheckFailedException".
Definition ErrCodeResourceInUseException : string := "ResourceInUseException".
Definition ErrCodeValidationException : string := "ValidationException".

Inductive TableStatus :=
| TableStatusActive
| TableStatusCreating
| TableStatusOther (status : string).

(** An attribute value is a string ([S]) or a number ([N]). *)
Inductive AttributeValue :=
| AttrS (s : string)
| AttrN (n : Z).

#[export] Instance AttributeValue_eq_dec : EqDecision AttributeValue.
Proof. solve_decision. Defined.

(** An item maps attribute names to values; a table maps the value of the
    key attribute [Name] to an item; the store is keyed by table name and
    key. *)
Abbreviation Item := (gmap string AttributeValue).
Abbreviation Store := (gmap (string * string) (gmap string AttributeValue)).

(** Condition expressions, with the placeholders ([#name], [:value]) still
    in them. *)
Inductive Condition :=
| attribute_not_exists (path : string)
| CmpEq (path value : string)
| CmpNe (path value : string)
| CmpLt (path value : string)
| COr (c1 c2 : Condition)
| CAnd (c1 c2 : Condition).

Record UpdateItemInput := {
  ConditionExpression : Condition;
  ExpressionAttributeNames : gmap string string;
  ExpressionAttributeValues : gmap string AttributeValue;
  Key : string;                              (* the value of the key attribute Name *)
  ReturnAllNew : bool;                       (* ReturnValues: ALL_NEW, or unset *)
  UpdateExpression : list (string * string); (* SET path = value, ... *)
  TableName : string
}.

Definition attr_eqb (a b : AttributeValue) : bool :=
  match a, b with
  | AttrS x, AttrS y => String.eqb x y
  | AttrN x, AttrN y => x =? y
  | _, _ => false
  end.

Definition attr_ltb (a b : AttributeValue) : bool :=
  match a, b with
  | AttrS x, AttrS y => String.ltb x y
  | AttrN x, AttrN y => x <? y
  | _, _ => false
  end.

(** A comparison of an attribute of the item with a value; an attribute the
    item does not have equals nothing and is less than nothing (so that it
    differs from everything, see [CmpNe] in [eval]). *)
Definition compare (op : AttributeValue -> AttributeValue -> bool)
    (names : gmap string string) (values : gmap string AttributeValue)
    (item : gmap string AttributeValue) (path value : string) : option bool :=
  match names !! path, values !! value with
  | Some a, Some v =>
      Some (match item !! a with Some x => op x v | None => false end)
  | _, _ => None
  end.

(** The truth of a condition on an item (the empty item when there is no
    record); [None] when a placeholder is not declared. *)
Fixpoint eval (names : gmap string string) (values : gmap string AttributeValue)
    (item : gmap string AttributeValue) (c : Condition) : option bool :=
  match c with
  | attribute_not_exists path =>
      match names !! path with
      | Some a => Some (bool_decide (item !! a = None))
      | None => None
      end
  | CmpEq path value => compare attr_eqb names values item path value
  | CmpNe path value => negb <$> compare attr_eqb names values item path value
  | CmpLt path value => compare attr_ltb names values item path value
  | COr c1 c2 =>
      match eval names values item c1, eval names values item c2 with
      | Some b1, Some b2 => Some (b1 || b2)
      | _, _ => None
      end
  | CAnd c1 c2 =>
      match eval names values item c1, eval names values item c2 with
      | Some b1, Some b2 => Some (b1 && b2)
      | _, _ => None
      end
  end.

(** The SET clauses, applied from left to right. *)
Fixpoint apply_set (names : gmap string string) (values : gmap string AttributeValue)
    (sets : list (string * string)) (item : gmap string AttributeValue)
    : option (gmap string AttributeValue) :=
  match sets with
  | [] => Some item
  | (path, value) :: sets' =>
      match names !! path, values !! value with
      | Some a, Some v => apply_set names values sets' (<[a := v]> item)
      | _, _ => None
      end
  end.

(** [UpdateItem]: one atomic step on the store.  The condition is checked on
    the current item; when it holds the item is created if need be (with its
    key attribute) and the SET clauses are applied; when it does not, the
    store is left as it is and the call fails with
    [ConditionalCheckFailedException]. *)
Definition UpdateItem (inp : UpdateItemInput)
    (db : gmap (string * string) (gmap string AttributeValue))
    : (gmap string AttributeValue + error) * gmap (string * string) (gmap string AttributeValue) :=
  let k := (TableName inp, Key inp) in
  let names := ExpressionAttributeNames inp in
  let values := ExpressionAttributeValues inp in
  let old := default ∅ (db !! k) in
  match eval names values old (ConditionExpression inp),
        apply_set names values (UpdateExpression inp) (<["Name"%string := AttrS (Key inp)]> old) with
  | Some true, Some new =>
      (inl (if ReturnAllNew inp then new else ∅), <[k := new]> db)
  | Some false, Some _ =>
      (inr (awserr ErrCodeConditionalCheckFailedException), db)
  | _, _ => (inr (awserr ErrCodeValidationException), db)
  end.

End DynamoDB.
Import DynamoDB.

(** ** The world the program runs in *)

(** What the program reads from and writes to outside itself.  The clock,
    the random source and the answers of the AWS control plane are oracles
    (the n-th reading, the n-th draw, ...), each with the count of the
    readings taken so far; [db] is the DynamoDB store; [requests] logs the
    [UpdateItem] calls issued and [sleeps] the [time.Sleep] calls made, oldest
    first. *)
Record World := {
  now : nat -> Z;                   (* n-th value of time.Now().UnixNano() *)
  clock_reads : nat;
  rand : nat -> Z;                  (* n-th raw draw of math/rand *)
  rand_draws : nat;
  env_credentials : bool;           (* the AWS_* variables are set *)
  new_session : option string;      (* session.NewSessionWithOptions fails *)
  list_tables : list string;        (* TableNames of the ListTables answer *)
  create_table : option error;      (* error of CreateTable *)
  describe_table : nat -> option TableStatus; (* n-th DescribeTable; None: it failed *)
  describes : nat;
  fault : nat -> option error;      (* the n-th UpdateItem fails before reaching the table *)
  db : Store;
  requests : list UpdateItemInput;
  sleeps : list Z
}.

Definition set_clock_reads (n : nat) (w : World) : World :=
  {| now := now w; clock_reads := n; rand := rand w; rand_draws := rand_draws w;
     env_credentials := env_credentials w; new_session := new_session w;
     list_tables := list_tables w; create_table := create_table w;
     describe_table := describe_table w; describes := describes w; fault := fault w;
     db := db w; requests := requests w; sleeps := sleeps w |}.

Definition set_rand_draws (n : nat) (w : World) : World :=
  {| now := now w; clock_reads := clock_reads w; rand := rand w; rand_draws := n;
     env_credentials := env_credentials w; new_session := new_session w;
     list_tables := list_tables w; create_table := create_table w;
     describe_table := describe_table w; describes := describes w; fault := fault w;
     db := db w; requests := requests w; sleeps := sleeps w |}.

Definition set_describes (n : nat) (w : World) : World :=
  {| now := now w; clock_reads := clock_reads w; rand := rand w; rand_draws := rand_draws w;
     env_credentials := env_credentials w; new_session := new_session w;
     list_tables := list_tables w; create_table := create_table w;
     describe_table := describe_table w; describes := n; fault := fault w;
     db := db w; requests := requests w; sleeps := sleeps w |}.

Definition set_sleeps (l : list Z) (w : World) : World :=
  {| now := now w; clock_reads := clock_reads w; rand := rand w; rand_draws := rand_draws w;
     env_credentials := env_credentials w; new_session := new_session w;
     list_tables := list_tables w; create_table := create_table w;
     describe_table := describe_table w; describes := describes w; fault := fault w;
     db := db w; requests := requests w; sleeps := l |}.

Definition set_db (d : Store) (l : list UpdateItemInput) (w : World) : World :=
  {| now := now w; clock_reads := clock_reads w; rand := rand w; rand_draws := rand_draws w;
     env_credentials := env_credentials w; new_session := new_session w;
     list_tables := list_tables w; create_table := create_table w;
     describe_table := describe_table w; describes := describes w; fault := fault w;
     db := d; requests := l; sleeps := sleeps w |}.

(** [time.Now().UnixNano()] *)
Definition UnixNano (w : World) : Z * World :=
  (now w (clock_reads w), set_clock_reads (S (clock_reads w)) w).

Definition draw (w : World) : Z * World :=
  (rand w (rand_draws w), set_rand_draws (S (rand_draws w)) w).

(** [rand.Int63()]: a non-negative 63-bit integer. *)
Definition Int63 (w : World) : Z * World :=
  let '(r, w') := draw w in (r mod 2 ^ 63, w').

(** [rand.Intn(n)]: an integer of [[0, n)]. *)
Definition Intn (n : Z) (w : World) : Z * World :=
  let '(r, w') := draw w in (r mod n, w').

(** [time.Sleep(d)] *)
Definition Sleep (d : Z) (w : World) : World := set_sleeps (sleeps w ++ [d]) w.

(** [DescribeTable]: the next answer of the control plane. *)
Definition DescribeTable (w : World) : option TableStatus * World :=
  (describe_table w (describes w), set_describes (S (describes w)) w).

(** A call of [DDBSession.UpdateItem]: the request is logged; unless the call
    fails on the way, it is one atomic [DynamoDB.UpdateItem] on the store. *)
Definition call_UpdateItem (inp : UpdateItemInput) (w : World)
    : (Item + error) * World :=
  let '(res, db') :=
    match fault w (length (requests w)) with
    | Some e => (inr e, db w)
    | None => UpdateItem inp (db w)
    end in
  (res, set_db db' (requests w ++ [inp]) w).

(** ** The Mutex *)

Record Session := { session_region : string; session_env_credentials : bool }.

(** The struct [Mutex].  [AWSSession] and [DDBSession] are pointers: [None]
    is nil.  [id] is the session identifier of the spec, [Value] its cached
    value. *)
Record Mutex := {
  initialized : bool;
  Name : string;
  Value : string;
  Expiry : Z;
  id : Z;
  AWSRegion : string;
  AWSSession : option Session;
  IgnoreEnvVars : bool;
  DDBSession : option Session;
  DDBTableName : string;
  timeout : Z;
  timeoutSet : bool
}.

(** The zero value [Mutex{}]. *)
Definition Mutex_zero : Mutex :=
  {| initialized := false; Name := EmptyString; Value := EmptyString; Expiry := 0; id := 0;
     AWSRegion := EmptyString; AWSSession := None; IgnoreEnvVars := false;
     DDBSession := None; DDBTableName := EmptyString;
     timeout := 0; timeoutSet := false |}.

(** Assignments to the fields of a Mutex. *)
Definition set_initialized (b : bool) (m : Mutex) : Mutex :=
  {| initialized := b; Name := Name m; Value := Value m; Expiry := Expiry m; id := id m;
     AWSRegion := AWSRegion m; AWSSession := AWSSession m; IgnoreEnvVars := IgnoreEnvVars m;
     DDBSession := DDBSession m; DDBTableName := DDBTableName m;
     timeout := timeout m; timeoutSet := timeoutSet m |}.

Definition set_Name (s : string) (m : Mutex) : Mutex :=
  {| initialized := initialized m; Name := s; Value := Value m; Expiry := Expiry m; id := id m;
     AWSRegion := AWSRegion m; AWSSession := AWSSession m; IgnoreEnvVars := IgnoreEnvVars m;
     DDBSession := DDBSession m; DDBTableName := DDBTableName m;
     timeout := timeout m; timeoutSet := timeoutSet m |}.

Definition set_Value (v : string) (m : Mutex) : Mutex :=
  {| initialized := initialized m; Name := Name m; Value := v; Expiry := Expiry m; id := id m;
     AWSRegion := AWSRegion m; AWSSession := AWSSession m; IgnoreEnvVars := IgnoreEnvVars m;
     DDBSession := DDBSession m; DDBTableName := DDBTableName m;
     timeout := timeout m; timeoutSet := timeoutSet m |}.

Definition set_Expiry (e : Z) (m : Mutex) : Mutex :=
  {| initialized := initialized m; Name := Name m; Value := Value m; Expiry := e; id := id m;
     AWSRegion := AWSRegion m; AWSSession := AWSSession m; IgnoreEnvVars := IgnoreEnvVars m;
     DDBSession := DDBSession m; DDBTableName := DDBTableName m;
     timeout := timeout m; timeoutSet := timeoutSet m |}.

Definition set_id (i : Z) (m : Mutex) : Mutex :=
  {| initialized := initialized m; Name := Name m; Value := Value m; Expiry := Expiry m; id := i;
     AWSRegion := AWSRegion m; AWSSession := AWSSession m; IgnoreEnvVars := IgnoreEnvVars m;
     DDBSession := DDBSession m; DDBTableName := DDBTableName m;
     timeout := timeout m; timeoutSet := timeoutSet m |}.

Definition set_AWSRegion (s : string) (m : Mutex) : Mutex :=
  {| initialized := initialized m; Name := Name m; Value := Value m; Expiry := Expiry m; id := id m;
     AWSRegion := s; AWSSession := AWSSession m; IgnoreEnvVars := IgnoreEnvVars m;
     DDBSession := DDBSession m; DDBTableName := DDBTableName m;
     timeout := timeout m; timeoutSet := timeoutSet m |}.

Definition set_AWSSession (s : option Session) (m : Mutex) : Mutex :=
  {| initialized := initialized m; Name := Name m; Value := Value m; Expiry := Expiry m; id := id m;
     AWSRegion := AWSRegion m; AWSSession := s; IgnoreEnvVars := IgnoreEnvVars m;
     DDBSession := DDBSession m; DDBTableName := DDBTableName m;
     timeout := timeout m; timeoutSet := timeoutSet m |}.

Definition set_DDBSession (s : option Session) (m : Mutex) : Mutex :=
  {| initialized := initialized m; Name := Name m; Value := Value m; Expiry := Expiry m; id := id m;
     AWSRegion := AWSRegion m; AWSSession := AWSSession m; IgnoreEnvVars := IgnoreEnvVars m;
     DDBSession := s; DDBTableName := DDBTableName m;
     timeout := timeout m; timeoutSet := timeoutSet m |}.

Definition set_DDBTableName (s : string) (m : Mutex) : Mutex :=
  {| initialized := initialized m; Name := Name m; Value := Value m; Expiry := Expiry m; id := id m;
     AWSRegion := AWSRegion m; AWSSession := AWSSession m; IgnoreEnvVars := IgnoreEnvVars m;
     DDBSession := DDBSession m; DDBTableName := s;
     timeout := timeout m; timeoutSet := timeoutSet m |}.

Definition set_timeout (t : Z) (m : Mutex) : Mutex :=
  {| initialized := initialized m; Name := Name m; Value := Value m; Expiry := Expiry m; id := id m;
     AWSRegion := AWSRegion m; AWSSession := AWSSession m; IgnoreEnvVars := IgnoreEnvVars m;
     DDBSession := DDBSession m; DDBTableName := DDBTableName m;
     timeout := t; timeoutSet := timeoutSet m |}.

Definition set_timeoutSet (b : bool) (m : Mutex) : Mutex :=
  {| initialized := initialized m; Name := Name m; Value := Value m; Expiry := Expiry m; id := id m;
     AWSRegion := AWSRegion m; AWSSession := AWSSession m; IgnoreEnvVars := IgnoreEnvVars m;
     DDBSession := DDBSession m; DDBTableName := DDBTableName m;
     timeout := timeout m; timeoutSet := b |}.

(** ** Running a method *)

(** What a Go value passed to [panic] can be in this program. *)
Inductive PanicValue :=
| panic_error (e : error)                  (* panic(err), panic(errors.New(...)) *)
| panic_string (msg : string)              (* panic(fmt.Sprintf(...)) *)
| panic_NumError (e : strconv.NumError)    (* panic(err.Error()) of a strconv error *)
| panic_nil_dereference.                   (* runtime error *)

(** The outcome of a method with a pointer receiver: it returns or it
    panics, leaving the Mutex and the world in some state either way, or the
    run was cut short by the fuel given to one of its loops. *)
Inductive Outcome (A : Type) :=
| Return (a : A) (m : Mutex) (w : World)
| Panics (p : PanicValue) (m : Mutex) (w : World)
| OutOfFuel.
Arguments Return {A} a m w.
Arguments Panics {A} p m w.
Arguments OutOfFuel {A}.

Definition bind {A B : Type} (x : Outcome A) (f : A -> Mutex -> World -> Outcome B)
    : Outcome B :=
  match x with
  | Return a m w => f a m w
  | Panics p m w => Panics p m w
  | OutOfFuel => OutOfFuel
  end.

(** The polling loop of [initialization]: wait until the table is active. *)
Fixpoint wait_active (fuel : nat) (m : Mutex) (w : World) : Outcome unit :=
  match fuel with
  | O => OutOfFuel
  | S fuel' =>
      let '(status, w) := DescribeTable w in
      match status with
      | None => Panics panic_nil_dereference m w
      | Some TableStatusActive => Return tt m w
      | Some TableStatusCreating => wait_active fuel' m (Sleep (100 * Millisecond) w)
      | Some (TableStatusOther st) =>
          Panics (panic_string
                    ("could not access table: error activating table. Table status: " ++ st)) m w
      end
  end.

(** [for m.id == 0 { m.id = rand.Int63() }] *)
Fixpoint draw_id (fuel : nat) (m : Mutex) (w : World) : Outcome unit :=
  if id m =? 0 then
    match fuel with
    | O => OutOfFuel
    | S fuel' => let '(r, w) := Int63 w in draw_id fuel' (set_id r m) w
    end
  else Return tt m w.

(** The part of [initialization] that makes sure the table is there. *)
Definition ensure_table (m : Mutex) (w : World) : Outcome unit :=
  if bool_decide (DDBTableName m ∈ list_tables w) then Return tt m w
  else
    match create_table w with
    | None => Return tt m w
    | Some (awserr code) =>
        if String.eqb code ErrCodeResourceInUseException then Return tt m w
        else Panics (panic_string "sync table not created") m w
    | Some (errorString _) => Panics (panic_string "sync table not created") m w
    end.

(** [func (m *Mutex) initialization() (err error)]; the error it returns is
    ignored by every caller and is left out. *)
Definition initialization (fuel : nat) (m : Mutex) (w : World) : Outcome unit :=
  if initialized m then Return tt m w
  else
    let m := if String.eqb (AWSRegion m) EmptyString then set_AWSRegion "us-east-1" m else m in
    let m := if String.eqb (DDBTableName m) EmptyString then set_DDBTableName "Locks" m else m in
    let m := if String.eqb (Name m) EmptyString then set_Name "Lock" m else m in
    let m := if String.eqb (Value m) EmptyString then set_Value "0" m else m in
    bind (match AWSSession m with
          | Some _ => Return tt m w
          | None =>
              match new_session w with
              | Some msg => Panics (panic_error (errorString msg)) m w
              | None =>
                  let s := {| session_region := AWSRegion m;
                              session_env_credentials :=
                                negb (IgnoreEnvVars m) && env_credentials w |} in
                  Return tt (set_AWSSession (Some s) m) w
              end
          end) (fun _ m w =>
    let m := match DDBSession m with
             | None => set_DDBSession (AWSSession m) m
             | Some _ => m
             end in
    bind (ensure_table m w) (fun _ m w =>
    bind (wait_active fuel m w) (fun _ m w =>
    let '(_, w) := UnixNano w in  (* rand.Seed(time.Now().UnixNano()) *)
    bind (draw_id fuel m w) (fun _ m w =>
    let m := if timeoutSet m then m else set_timeout (5 * Second) m in
    Return tt (set_initialized true m) w)))).

(** The names the requests declare for the attributes of the record. *)
Definition lock_names : gmap string string :=
  <["#name" := "Name"]> (<["#lastwrite" := "LastWrite"]> (<["#id" := "LockerID"]> ∅)).

Definition unlock_names : gmap string string :=
  <["#name" := "Name"]> (<["#value" := "Value"]>
    (<["#lastwrite" := "LastWrite"]> (<["#id" := "LockerID"]> ∅))).

(** ["attribute_not_exists(#name) OR attribute_not_exists(#id) OR #id = :zero OR #id = :id"] *)
Definition lock_condition : Condition :=
  COr (COr (COr (attribute_not_exists "#name") (attribute_not_exists "#id"))
           (CmpEq "#id" ":zero"))
      (CmpEq "#id" ":id").

(** [" OR ( #id <> :id AND #lastwrite < :nowminusexpiry )"], appended to [c]. *)
Definition or_expired (c : Condition) : Condition :=
  COr c (CAnd (CmpNe "#id" ":id") (CmpLt "#lastwrite" ":nowminusexpiry")).

(** ["attribute_not_exists(#name) OR #id = :id"] *)
Definition unlock_condition : Condition :=
  COr (attribute_not_exists "#name") (CmpEq "#id" ":id").

(** The request [tryLock] sends: [lastwrite] is the clock read for
    [:lastwrite]; [expired] is the clock read for [:nowminusexpiry], which is
    read only when there is an expiry. *)
Definition lock_request (m : Mutex) (lastwrite expired : Z) : UpdateItemInput :=
  let values : gmap string AttributeValue :=
    <[":lastwrite" := AttrN lastwrite]> (<[":id" := AttrN (id m)]> (<[":zero" := AttrN 0]> ∅)) in
  {| ConditionExpression :=
       if 0 <? Expiry m then or_expired lock_condition else lock_condition;
     ExpressionAttributeNames := lock_names;
     ExpressionAttributeValues :=
       if 0 <? Expiry m
       then <[":nowminusexpiry" := AttrN (wrap64 (expired - Expiry m))]> values
       else values;
     Key := Name m;
     ReturnAllNew := true;
     UpdateExpression := [("#lastwrite", ":lastwrite"); ("#id", ":id")];
     TableName := DDBTableName m |}.

(** The request [tryUnlock] sends. *)
Definition unlock_request (m : Mutex) (lastwrite : Z) : UpdateItemInput :=
  {| ConditionExpression := unlock_condition;
     ExpressionAttributeNames := unlock_names;
     ExpressionAttributeValues :=
       <[":lastwrite" := AttrN lastwrite]> (<[":id" := AttrN (id m)]>
         (<[":zero" := AttrN 0]> (<[":value" := AttrS (Value m)]> ∅)));
     Key := Name m;
     ReturnAllNew := false;
     UpdateExpression := [("#lastwrite", ":lastwrite"); ("#id", ":zero"); ("#value", ":value")];
     TableName := DDBTableName m |}.

(** [func (m *Mutex) tryLock() (err error)] *)
Definition tryLock (m : Mutex) (w : World) : Outcome (option error) :=
  let '(lastwrite, w) := UnixNano w in
  let '(expired, w) := if 0 <? Expiry m then UnixNano w else (0, w) in
  match DDBSession m with
  | None => Panics panic_nil_dereference m w
  | Some _ =>
      let '(result, w) := call_UpdateItem (lock_request m lastwrite expired) w in
      match result with
      | inr err => Return (Some err) m w
      | inl attributes =>
          match attributes !! "Value" with
          | Some (AttrS v) => Return None (set_Value v m) w
          | Some (AttrN _) => Panics panic_nil_dereference m w
          | None => Return None m w
          end
      end
  end.

(** [func (m *Mutex) tryUnlock() (err error)] *)
Definition tryUnlock (m : Mutex) (w : World) : Outcome (option error) :=
  let '(lastwrite, w) := UnixNano w in
  match DDBSession m with
  | None => Panics panic_nil_dereference m w
  | Some _ =>
      let '(result, w) := call_UpdateItem (unlock_request m lastwrite) w in
      match result with
      | inr err => Return (Some err) m w
      | inl _ => Return None m w
      end
  end.

(** [func (m Mutex) WithTimeout(timeout time.Duration) Mutex]: on a copy. *)
Definition WithTimeout (m : Mutex) (t : Z) : Mutex :=
  set_timeoutSet true (set_timeout t m).

Definition could_not_lock : PanicValue := panic_error (errorString "could not lock mutex").
Definition could_not_unlock : PanicValue := panic_error (errorString "could not unlock mutex").

Definition is_ConditionalCheckFailed (e : error) : bool :=
  match e with
  | awserr code => String.eqb code ErrCodeConditionalCheckFailedException
  | errorString _ => false
  end.

(** What one turn of the loop of [Lock] ends in. *)
Inductive Turn :=
| Acquired (m : Mutex) (w : World)                   (* break *)
| Retry (m : Mutex) (w : World)                      (* continue, after the sleep *)
| Failed (p : PanicValue) (m : Mutex) (w : World)    (* panic *)
| Stuck.                                             (* a callee ran out of fuel *)

(** The body of the [for] loop of [Lock]. *)
Definition Lock_turn (started : Z) (m : Mutex) (w : World) : Turn :=
  match tryLock m w with
  | OutOfFuel => Stuck
  | Panics p m w => Failed p m w
  | Return None m w => Acquired m w
  | Return (Some err) m w =>
      if is_ConditionalCheckFailed err then
        let '(t, w) := UnixNano w in
        if started <? wrap64 (t - timeout m) then Failed could_not_lock m w
        else
          let '(r, w) := Intn 10 w in
          Retry m (Sleep (wrap64 (r * Millisecond)) w)
      else Failed (panic_error err) m w
  end.

Fixpoint Lock_loop (fuel : nat) (started : Z) (m : Mutex) (w : World) : Outcome unit :=
  match fuel with
  | O => OutOfFuel
  | S fuel' =>
      match Lock_turn started m w with
      | Acquired m w => Return tt m w
      | Retry m w => Lock_loop fuel' started m w
      | Failed p m w => Panics p m w
      | Stuck => OutOfFuel
      end
  end.

(** [func (m *Mutex) Lock()] *)
Definition Lock (fuel : nat) (m : Mutex) (w : World) : Outcome unit :=
  bind (initialization fuel m w) (fun _ m w =>
  let '(started, w) := UnixNano w in
  Lock_loop fuel started m w).

(** [func (m *Mutex) Unlock()] *)
Definition Unlock (fuel : nat) (m : Mutex) (w : World) : Outcome unit :=
  bind (initialization fuel m w) (fun _ m w =>
  bind (tryUnlock m w) (fun err m w =>
  match err with
  | None => Return tt m w
  | Some err =>
      if is_ConditionalCheckFailed err then Panics could_not_unlock m w
      else Panics (panic_error err) m w
  end)).

(** [func (m *Mutex) GetValueInt64() int64]: the Mutex and the world are not
    touched, the result is the integer or the panic. *)
Definition GetValueInt64 (m : Mutex) : Z + PanicValue :=
  if String.eqb (Value m) EmptyString then inl 0
  else
    match strconv.ParseInt (Value m) with
    | (_, Some err) => inr (panic_NumError err)
    | (result, None) => inl result
    end.

(** [func (m *Mutex) SetValueInt64(value int64)] *)
Definition SetValueInt64 (m : Mutex) (value : Z) : Mutex :=
  set_Value (strconv.FormatInt value) m.

(** [func (m *Mutex) GetValueString() string] *)
Definition GetValueString (m : Mutex) : string := Value m.

(** [func (m *Mutex) SetValueString(value string)] *)
Definition SetValueString (m : Mutex) (value : string) : Mutex := set_Value value m.

(** [func (m *Mutex) LockAndGetValueString() string] *)
Definition LockAndGetValueString (fuel : nat) (m : Mutex) (w : World) : Outcome string :=
  bind (Lock fuel m w) (fun _ m w => Return (GetValueString m) m w).

(** [func (m *Mutex) SetValueStringAndUnlock(value string)] *)
Definition SetValueStringAndUnlock (fuel : nat) (m : Mutex) (value : string) (w : World)
    : Outcome unit :=
  Unlock fuel (SetValueString m value) w.

(** [func (m *Mutex) GetTimeout() time.Duration] *)
Definition GetTimeout (m : Mutex) : Z := timeout m.

(** ** The failures of the specification *)

Inductive Failure := ConditionFailed | StoreError | NotHolder | InvalidValue | FailedToAcquire.

(** How a panic of the program reads in the taxonomy of the specification. *)
Definition failure_of (p : PanicValue) : Failure :=
  match p with
  | panic_error (errorString msg) =>
      if String.eqb msg "could not lock mutex" then FailedToAcquire
      else if String.eqb msg "could not unlock mutex" then NotHolder
      else StoreError
  | panic_error e => if is_ConditionalCheckFailed e then ConditionFailed else StoreError
  | panic_NumError _ => InvalidValue
  | panic_string _ | panic_nil_dereference => StoreError
  end.

(** ** The vocabulary of the specification *)

(** A base-10 signed 64-bit integer literal: an optional sign, then at least
    one decimal digit, the number written being in the [int64] range.
    [literal_value] is the number, [None] when the string is no literal. *)
Definition is_digit (c : ascii) : bool :=
  (48 <=? strconv.byte_of c) && (strconv.byte_of c <=? 57).

Fixpoint all_digits (s : string) : bool :=
  match s with
  | EmptyString => true
  | String c rest => is_digit c && all_digits rest
  end.

Fixpoint decimal_value (n : Z) (s : string) : Z :=
  match s with
  | EmptyString => n
  | String c rest => decimal_value (n * 10 + (strconv.byte_of c - 48)) rest
  end.

Definition literal_value (s : string) : option Z :=
  match s with
  | EmptyString => None
  | String c rest =>
      let neg := Ascii.eqb c "-" in
      let digits := if Ascii.eqb c "+" || neg then rest else s in
      match digits with
      | EmptyString => None
      | _ =>
          if all_digits digits then
            let v := if neg then - decimal_value 0 digits else decimal_value 0 digits in
            if (min_int64 <=? v) && (v <=? max_int64) then Some v else None
          else None
      end
  end.

(** The record of a lock, as the store has it: [None] when there is none. *)
Definition record_of (m : Mutex) (d : Store) : option Item := d !! (DDBTableName m, Name m).

(** Every record of the store carries its key attribute. *)
Definition store_ok (d : Store) : Prop :=
  forall k item, d !! k = Some item -> item !! "Name"%string = Some (AttrS k.2).

(** The acquire condition in the words of the specification: record absent,
    or HolderID absent, or HolderID = 0, or HolderID = SessionID, or, with an
    expiry, HolderID <> SessionID and LastWrite < now - Expiry. *)
Definition may_acquire (m : Mutex) (now_ : Z) (record : option Item) : bool :=
  match record with
  | None => true
  | Some item =>
      match item !! "LockerID"%string with
      | None => true
      | Some holder =>
          attr_eqb holder (AttrN 0) || attr_eqb holder (AttrN (id m))
          || ((0 <? Expiry m) && negb (attr_eqb holder (AttrN (id m)))
              && match item !! "LastWrite"%string with
                 | Some lastwrite => attr_ltb lastwrite (AttrN (wrap64 (now_ - Expiry m)))
                 | None => false
                 end)
      end
  end.

(** The release condition: record absent, or HolderID = SessionID. *)
Definition may_release (m : Mutex) (record : option Item) : bool :=
  match record with
  | None => true
  | Some item =>
      match item !! "LockerID"%string with
      | None => false
      | Some holder => attr_eqb holder (AttrN (id m))
      end
  end.

(** The record an acquisition writes: HolderID = SessionID, LastWrite = now. *)
Definition acquired_record (m : Mutex) (now_ : Z) (record : option Item) : Item :=
  <["LockerID"%string := AttrN (id m)]> (<["LastWrite"%string := AttrN now_]>
    (<["Name"%string := AttrS (Name m)]> (default ∅ record))).

(** The record a release writes: HolderID = 0, LastWrite = now, Value =
    CachedValue. *)
Definition released_record (m : Mutex) (now_ : Z) (record : option Item) : Item :=
  <["Value"%string := AttrS (Value m)]> (<["LockerID"%string := AttrN 0]>
    (<["LastWrite"%string := AttrN now_]>
      (<["Name"%string := AttrS (Name m)]> (default ∅ record)))).

(** ** Clients sharing one store *)

(** Several initialized clients, each a process of its own, work on one
    store.  Each call of [UpdateItem] is one atomic step of the system; the
    steps of the clients interleave in any order, and each runs in a world of
    its own (its clock, its random source, its faults) around the shared store.
    [holding] records that the client's last [Lock] has returned and its
    [Unlock] has not yet completed. *)
Record Client := { mutex : Mutex; holding : bool }.

Record System := { clients : list Client; store : Store }.

Inductive step (s : System) : System -> Prop :=
| step_acquired i c w m' w' :
    clients s !! i = Some c -> db w = store s ->
    tryLock (mutex c) w = Return None m' w' ->
    step s {| clients := <[i := {| mutex := m'; holding := true |}]> (clients s);
              store := db w' |}
| step_refused i c w err m' w' :
    clients s !! i = Some c -> db w = store s ->
    tryLock (mutex c) w = Return (Some err) m' w' ->
    step s {| clients := <[i := {| mutex := m'; holding := holding c |}]> (clients s);
              store := db w' |}
| step_lock_panics i c w p m' w' :
    clients s !! i = Some c -> db w = store s ->
    tryLock (mutex c) w = Panics p m' w' ->
    step s {| clients := <[i := {| mutex := m'; holding := holding c |}]> (clients s);
              store := db w' |}
| step_released i c w m' w' :
    clients s !! i = Some c -> db w = store s ->
    tryUnlock (mutex c) w = Return None m' w' ->
    step s {| clients := <[i := {| mutex := m'; holding := false |}]> (clients s);
              store := db w' |}
| step_not_released i c w err m' w' :
    clients s !! i = Some c -> db w = store s ->
    tryUnlock (mutex c) w = Return (Some err) m' w' ->
    step s {| clients := <[i := {| mutex := m'; holding := holding c |}]> (clients s);
              store := db w' |}
| step_set_value i c v :
    clients s !! i = Some c ->
    step s {| clients := <[i := {| mutex := set_Value v (mutex c); holding := holding c |}]>
                           (clients s);
              store := store s |}.

Inductive reachable (s0 : System) : System -> Prop :=
| reachable_start : reachable s0 s0
| reachable_step s1 s2 : reachable s0 s1 -> step s1 s2 -> reachable s0 s2.

(** The clients of the claim: initialized, on the same lock of the same
    table, without expiry, with nonzero and pairwise distinct identifiers. *)
Definition contenders (table name : string) (cs : list Client) : Prop :=
  (forall i c, cs !! i = Some c ->
     DDBTableName (mutex c) = table /\ Name (mutex c) = name /\
     Expiry (mutex c) = 0 /\ id (mutex c) <> 0) /\
  (forall i j ci cj, cs !! i = Some ci -> cs !! j = Some cj ->
     id (mutex ci) = id (mutex cj) -> i = j).

Definition nobody_holds (cs : list Client) : Prop :=
  forall i c, cs !! i = Some c -> holding c = false.

(** ** The life of one client *)

(** The Mutex a call leaves behind, whether it returned or panicked. *)
Definition after {A : Type} (o : Outcome A) : option Mutex :=
  match o with
  | Return _ m _ => Some m
  | Panics _ m _ => Some m
  | OutOfFuel => None
  end.

(** One operation of the package on a Mutex, in any world: a method, or an
    assignment to an exported field. *)
Inductive operation (m : Mutex) : Mutex -> Prop :=
| op_initialization fuel w m' : after (initialization fuel m w) = Some m' -> operation m m'
| op_Lock fuel w m' : after (Lock fuel m w) = Some m' -> operation m m'
| op_Unlock fuel w m' : after (Unlock fuel m w) = Some m' -> operation m m'
| op_LockAndGetValueString fuel w m' :
    after (LockAndGetValueString fuel m w) = Some m' -> operation m m'
| op_SetValueStringAndUnlock fuel v w m' :
    after (SetValueStringAndUnlock fuel m v w) = Some m' -> operation m m'
| op_getter : operation m m   (* GetValueInt64, GetValueString, GetTimeout *)
| op_SetValueInt64 v : operation m (SetValueInt64 m v)
| op_SetValueString v : operation m (SetValueString m v)
| op_WithTimeout t : operation m (WithTimeout m t)
| op_assign_Name s : operation m (set_Name s m)
| op_assign_Value s : operation m (set_Value s m)
| op_assign_Expiry e : operation m (set_Expiry e m)
| op_assign_AWSRegion s : operation m (set_AWSRegion s m)
| op_assign_DDBTableName s : operation m (set_DDBTableName s m).

Inductive operations (m : Mutex) : Mutex -> Prop :=
| ops_none : operations m m
| ops_more m1 m2 : operations m m1 -> operation m1 m2 -> operations m m2.

(** ** What a call leaves behind *)

(** The world a call leaves, whether it returned or panicked. *)
Definition world_after {A : Type} (o : Outcome A) (w0 : World) : World :=
  match o with
  | Return _ _ w => w
  | Panics _ _ w => w
  | OutOfFuel => w0
  end.

Definition mutex_after {A : Type} (o : Outcome A) (m0 : Mutex) : Mutex :=
  match after o with Some m => m | None => m0 end.

(** The world a turn of the loop of [Lock] leaves. *)
Definition world_of_turn (t : Turn) (w0 : World) : World :=
  match t with
  | Acquired _ w | Retry _ w | Failed _ _ w => w
  | Stuck => w0
  end.

(** The world after the clock was read for the timeout test of [Lock], and
    the world after the backoff sleep that follows when [Lock] goes on. *)
Definition tested_world (w : World) : World := (UnixNano w).2.
Definition backoff (w : World) : Z := (Intn 10 (tested_world w)).1.
Definition retry_world (w : World) : World :=
  Sleep (wrap64 (backoff w * Millisecond)) (Intn 10 (tested_world w)).2.

(** [GetValueInt64] fails with InvalidValue. *)
Definition GetValueInt64_fails (m : Mutex) : Prop :=
  exists p, GetValueInt64 m = inr p /\ failure_of p = InvalidValue.

(** What no operation changes once a client is initialized. *)
Definition same_session (m m' : Mutex) : Prop :=
  initialized m' = initialized m /\ id m' = id m /\
  DDBSession m' = DDBSession m.

(** Two states of a Mutex that stand for the same lock and the same session. *)
Definition same_lock (m m' : Mutex) : Prop :=
  id m' = id m /\ Name m' = Name m /\ DDBTableName m' = DDBTableName m /\
  Expiry m' = Expiry m.

(** Two worlds with the same store, the same log of requests and the same
    faults to come. *)
Definition same_store (w w' : World) : Prop :=
  db w' = db w /\ requests w' = requests w /\ fault w' = fault w.

(** The record of the lock names every client that holds it. *)
Definition holder_recorded (table name : string) (s : System) : Prop :=
  forall i c, clients s !! i = Some c -> holding c = true ->
    exists item, store s !! (table, name) = Some item /\
                 item !! "LockerID"%string = Some (AttrN (id (mutex c))).

(** What every reachable state of the system satisfies. *)
Definition invariant (table name : string) (s : System) : Prop :=
  contenders table name (clients s) /\ store_ok (store s) /\ holder_recorded table name s.

(** ** Worlds and clients to run examples in *)

(** A world with the table [Locks] active and nothing failing; the clock
    advances by ten nanoseconds between two readings. *)
Definition calm_world : World :=
  {| now := fun n => 1000 + 10 * Z.of_nat n; clock_reads := 0;
     rand := fun n => 7 + Z.of_nat n; rand_draws := 0;
     env_credentials := true; new_session := None; list_tables := ["Locks"%string];
     create_table := None; describe_table := fun _ => Some TableStatusActive; describes := 0;
     fault := fun _ => None; db := ∅; requests := []; sleeps := [] |}.

(** The session the clients of [calm_world] get. *)
Definition calm_session : Session :=
  {| session_region := "us-east-1"; session_env_credentials := true |}.

(** The zero Mutex after its first initialization, and a later state of it:
    a value set, then locked. *)
Definition first_client : Mutex :=
  mutex_after (initialization 10 Mutex_zero calm_world) Mutex_zero.
Definition first_world : World :=
  world_after (initialization 10 Mutex_zero calm_world) calm_world.
Definition later_client : Mutex :=
  mutex_after (Lock 10 (SetValueInt64 first_client 5) first_world) first_client.

(** The zero Mutex after [Lock], and the world in which it holds the lock. *)
Definition holder : Mutex := mutex_after (Lock 10 Mutex_zero calm_world) Mutex_zero.
Definition held_world : World := world_after (Lock 10 Mutex_zero calm_world) calm_world.

(** The record the first client wrote when it took the lock. *)
Definition held_record : Item :=
  <["Name"%string := AttrS "Lock"]> (<["LockerID"%string := AttrN 7]>
    (<["LastWrite"%string := AttrN 1020]> ∅)).

(** The record a client that never locked leaves by unlocking first. *)
Definition unlocked_record : Item :=
  <["Name"%string := AttrS "Lock"]> (<["Value"%string := AttrS "0"]>
    (<["LockerID"%string := AttrN 0]> (<["LastWrite"%string := AttrN 1010]> ∅))).

(** A second client, initialized while the first one holds the lock. *)
Definition contender : Mutex :=
  mutex_after (initialization 10 Mutex_zero held_world) Mutex_zero.
Definition contender_world : World :=
  world_after (initialization 10 Mutex_zero held_world) held_world.

(** The second client with a timeout of twenty nanoseconds, the time at which
    its [Lock] starts, and the world of its first attempt: the attempt is
    refused, and the clock then reads twenty nanoseconds past the start. *)
Definition patient : Mutex := WithTimeout contender 20.
Definition patient_started : Z := (UnixNano contender_world).1.
Definition patient_world : World := (UnixNano contender_world).2.

(** The world after that first attempt. *)
Definition refused_world : World :=
  world_after (tryLock patient patient_world) patient_world.

(** Two initialized clients on the default lock, before either locks, and the
    system after the first one has taken the lock. *)
Definition two_clients : System :=
  {| clients := [ {| mutex := first_client; holding := false |};
                  {| mutex := contender; holding := false |} ];
     store := ∅ |}.

Definition first_holds : System :=
  {| clients := <[0%nat := {| mutex := mutex_after (tryLock first_client first_world) first_client;
                              holding := true |}]> (clients two_clients);
     store := db (world_after (tryLock first_client first_world) first_world) |}.

(** ** The worlds an attempt and a release leave *)

(** The request an attempt of [m] sends from the world [w], and how far it
    moves the clock. *)
Definition attempt_request (m : Mutex) (w : World) : UpdateItemInput :=
  lock_request m (now w (clock_reads w)) (now w (S (clock_reads w))).

Definition attempt_reads (m : Mutex) (w : World) : nat :=
  if 0 <? Expiry m then S (S (clock_reads w)) else S (clock_reads w).

(** The world after an attempt that DynamoDB applied, and after one it
    refused. *)
Definition acquired_world (m : Mutex) (w : World) : World :=
  set_db (<[(DDBTableName m, Name m)
            := acquired_record m (now w (clock_reads w)) (record_of m (db w))]> (db w))
         (requests w ++ [attempt_request m w])
         (set_clock_reads (attempt_reads m w) w).

Definition lock_refused_world (m : Mutex) (w : World) : World :=
  set_db (db w) (requests w ++ [attempt_request m w])
         (set_clock_reads (attempt_reads m w) w).

(** The same for a release. *)
Definition release_request (m : Mutex) (w : World) : UpdateItemInput :=
  unlock_request m (now w (clock_reads w)).

Definition released_world (m : Mutex) (w : World) : World :=
  set_db (<[(DDBTableName m, Name m)
            := released_record m (now w (clock_reads w)) (record_of m (db w))]> (db w))
         (requests w ++ [release_request m w])
         (set_clock_reads (S (clock_reads w)) w).

Definition unlock_refused_world (m : Mutex) (w : World) : World :=
  set_db (db w) (requests w ++ [release_request m w])
         (set_clock_reads (S (clock_reads w)) w).

(** The attributes of the record of a lock in the store. *)
Definition stored (attribute : string) (m : Mutex) (d : Store) : option AttributeValue :=
  match record_of m d with
  | Some item => item !! attribute
  | None => None
  end.

(** The value [tryLock] leaves in the cache when the store has [v]. *)
Definition adopted_value (m : Mutex) (v : option AttributeValue) : string :=
  match v with
  | Some (AttrS s) => s
  | _ => Value m
  end.

(** The record is free for [m]: absent, without a holder, released, or held by
    [m] itself. *)
Definition free_for (m : Mutex) (d : Store) : Prop :=
  stored "LockerID" m d = None \/ stored "LockerID" m d = Some (AttrN 0) \/
  stored "LockerID" m d = Some (AttrN (id m)).

(** The stored value is not a number (what [tryLock] cannot read). *)
Definition value_readable (m : Mutex) (d : Store) : Prop :=
  forall n, stored "Value" m d <> Some (AttrN n).

(** The Mutex after an attempt that found [v] in the store. *)
Definition adopt (m : Mutex) (v : option AttributeValue) : Mutex :=
  match v with
  | Some (AttrS s) => set_Value s m
  | _ => m
  end.

(** The world of the second client once the first one has released the lock
    with the value ["hello"]. *)
Definition handed_world : World :=
  set_db (db (released_world (SetValueString holder "hello") held_world))
         (requests contender_world) contender_world.

(** A world in which every request to the table is throttled. *)
Definition throttled (w : World) : World :=
  {| now := now w; clock_reads := clock_reads w; rand := rand w; rand_draws := rand_draws w;
     env_credentials := env_credentials w; new_session := new_session w;
     list_tables := list_tables w; create_table := create_table w;
     describe_table := describe_table w; describes := describes w;
     fault := fun _ => Some (awserr "ProvisionedThroughputExceededException");
     db := db w; requests := requests w; sleeps := sleeps w |}.

(** The second client with an expiry of twenty nanoseconds. *)
Definition seizer : Mutex := set_Expiry 20 contender.

(** The store [d'] differs from [d] at most at the key [k], and has every
    record [d] has. *)
Definition writes_only (k : string * string) (d d' : Store) : Prop :=
  (forall k', k' <> k -> d' !! k' = d !! k') /\
  (forall k', is_Some (d !! k') -> is_Some (d' !! k')).

(** * Properties *)

(** ** strconv on examples *)

Example ParseInt_42 : strconv.ParseInt "42" = (42, None).
Proof. reflexivity. Qed.
Example ParseInt_plus7 : strconv.ParseInt "+007" = (7, None).
Proof. reflexivity. Qed.
Example ParseInt_min : strconv.ParseInt "-9223372036854775808" = (min_int64, None).
Proof. reflexivity. Qed.
Example ParseInt_over :
  strconv.ParseInt "9223372036854775808" = (max_int64, Some (strconv.rangeError "ParseInt" "9223372036854775808")).
Proof. reflexivity. Qed.
Example ParseInt_word :
  strconv.ParseInt "not-a-number" = (0, Some (strconv.syntaxError "ParseInt" "not-a-number")).
Proof. reflexivity. Qed.
Example FormatInt_min : strconv.FormatInt min_int64 = "-9223372036854775808"%string.
Proof. reflexivity. Qed.
Example FormatInt_0 : strconv.FormatInt 0 = "0"%string.
Proof. reflexivity. Qed.

(** ** strconv: parsing and printing integers *)

(** Case analysis on every integer comparison of the goal, the impossible
    cases being closed by arithmetic. *)
Ltac cases_on_comparisons :=
  repeat match goal with
    | |- context [?a <=? ?b] => destruct (Z.leb_spec a b); try lia
    | |- context [?a <? ?b] => destruct (Z.ltb_spec a b); try lia
    end.

Section Strconv.
Import strconv.

Lemma byte_of_range c : 0 <= byte_of c < 256.
Proof.
  unfold byte_of. pose proof (N_ascii_bounded c). lia.
Qed.

Lemma digit_val_digit c :
  is_digit c = true ->
  digit_val (byte_of c) = Some (byte_of c - 48) /\ 0 <= byte_of c - 48 <= 9.
Proof.
  unfold is_digit, digit_val. intros H. rewrite H.
  apply andb_true_iff in H as [H1 H2]. split; [reflexivity|lia].
Qed.

Lemma digit_val_other c :
  is_digit c = false ->
  digit_val (byte_of c) = None \/ exists d, digit_val (byte_of c) = Some d /\ 10 <= d.
Proof.
  unfold is_digit, digit_val. intros H. rewrite H.
  destruct ((97 <=? lower (byte_of c)) && (lower (byte_of c) <=? 122)) eqn:E.
  - right. eexists. split; [reflexivity|]. apply andb_true_iff in E as [E1 E2]. lia.
  - now left.
Qed.

Lemma decimal_value_ge s :
  all_digits s = true -> forall n, 0 <= n -> n <= decimal_value n s.
Proof.
  induction s as [|c rest IH]; simpl; intros Hd n Hn; [lia|].
  apply andb_true_iff in Hd as [Hc Hrest].
  destruct (digit_val_digit c Hc) as [_ Hr].
  specialize (IH Hrest (n * 10 + (byte_of c - 48))). lia.
Qed.

Lemma parse_loop_value s0 s :
  all_digits s = true -> forall n, 0 <= n -> decimal_value n s <= max_uint64 ->
  parse_loop s0 n s = (decimal_value n s, None).
Proof.
  induction s as [|c rest IH]; simpl; intros Hd n Hn Hv; [reflexivity|].
  apply andb_true_iff in Hd as [Hc Hrest].
  destruct (digit_val_digit c Hc) as [-> Hr].
  pose proof (decimal_value_ge rest Hrest (n * 10 + (byte_of c - 48))) as Hge.
  unfold cutoff10, max_uint64 in *.
  change (2 ^ 64) with 18446744073709551616 in *.
  change ((18446744073709551616 - 1) / 10 + 1) with 1844674407370955162.
  assert (Hsmall : n * 10 + (byte_of c - 48) <= 18446744073709551615) by lia.
  destruct (10 <=? byte_of c - 48) eqn:E1; [lia|].
  destruct (1844674407370955162 <=? n) eqn:E2; [lia|].
  rewrite (Z.mod_small (n * 10)) by lia.
  rewrite (Z.mod_small (n * 10 + _)) by lia.
  destruct (n * 10 + (byte_of c - 48) <? n * 10) eqn:E3; [lia|].
  destruct (18446744073709551616 - 1 <? n * 10 + (byte_of c - 48)) eqn:E4; [lia|].
  simpl. apply IH; [assumption|lia|lia].
Qed.

Lemma parse_loop_too_large s0 s :
  all_digits s = true -> forall n, 0 <= n <= max_uint64 -> max_uint64 < decimal_value n s ->
  parse_loop s0 n s = (max_uint64, Some (rangeError "ParseUint" s0)).
Proof.
  induction s as [|c rest IH]; simpl; intros Hd n Hn Hv; [lia|].
  apply andb_true_iff in Hd as [Hc Hrest].
  destruct (digit_val_digit c Hc) as [-> Hr].
  unfold cutoff10, max_uint64 in *.
  change (2 ^ 64) with 18446744073709551616 in *.
  change ((18446744073709551616 - 1) / 10 + 1) with 1844674407370955162.
  destruct (10 <=? byte_of c - 48) eqn:E1; [lia|].
  destruct (1844674407370955162 <=? n) eqn:E2; [reflexivity|].
  rewrite (Z.mod_small (n * 10)) by lia.
  destruct (Z_le_gt_dec (n * 10 + (byte_of c - 48)) 18446744073709551615) as [Hle|Hgt].
  - rewrite (Z.mod_small (n * 10 + _)) by lia.
    destruct (n * 10 + (byte_of c - 48) <? n * 10) eqn:E3; [lia|].
    destruct (18446744073709551616 - 1 <? n * 10 + (byte_of c - 48)) eqn:E4; [lia|].
    simpl. apply IH; [assumption|lia|lia].
  - assert (Hm : (n * 10 + (byte_of c - 48)) mod 18446744073709551616
                 = n * 10 + (byte_of c - 48) - 18446744073709551616).
    { symmetry. apply (Z.mod_unique _ _ 1); lia. }
    rewrite Hm.
    destruct (n * 10 + (byte_of c - 48) - 18446744073709551616 <? n * 10) eqn:E3; [|lia].
    reflexivity.
Qed.

Lemma parse_loop_not_digits s0 s :
  all_digits s = false -> forall n,
  parse_loop s0 n s = (0, Some (syntaxError "ParseUint" s0)) \/
  parse_loop s0 n s = (max_uint64, Some (rangeError "ParseUint" s0)).
Proof.
  induction s as [|c rest IH]; simpl; intros Hd n; [discriminate|].
  destruct (is_digit c) eqn:Hc.
  - simpl in Hd. destruct (digit_val_digit c Hc) as [-> Hr].
    destruct (10 <=? byte_of c - 48); [now left|].
    destruct (cutoff10 <=? n); [now right|].
    match goal with |- context [if ?b then _ else _] => destruct b end;
      [now right|now apply IH].
  - destruct (digit_val_other c Hc) as [->|(d & -> & Hd')]; [now left|].
    destruct (10 <=? d) eqn:E; [now left|lia].
Qed.

Lemma wrap64_in_range z : in_int64 z -> wrap64 z = z.
Proof.
  unfold in_int64, wrap64, min_int64, max_int64. intros H.
  rewrite Z.mod_small; lia.
Qed.

(** [ParseInt] accepts exactly the literals, with their value. *)
Lemma ParseInt_literal s :
  match literal_value s with
  | Some v => ParseInt s = (v, None)
  | None => exists v e, ParseInt s = (v, Some e)
  end.
Proof.
  destruct s as [|c rest]; [simpl; eauto|].
  unfold literal_value, ParseInt.
  set (neg := Ascii.eqb c "-").
  set (digits := if Ascii.eqb c "+" || neg then rest else String c rest).
  destruct digits as [|d ds] eqn:Hdigits; [simpl; eauto|].
  rewrite <- Hdigits. clearbody digits.
  assert (HU : ParseUint digits = parse_loop digits 0 digits) by (subst; reflexivity).
  rewrite HU. clear HU.
  destruct (all_digits digits) eqn:Hall.
  - pose proof (decimal_value_ge digits Hall 0 ltac:(lia)) as Hge.
    destruct (Z_le_gt_dec (decimal_value 0 digits) max_uint64) as [Hle|Hgt].
    + rewrite parse_loop_value by (assumption || lia).
      unfold min_int64, max_int64, max_uint64 in *.
      destruct neg; simpl negb; simpl andb; cbv iota; cases_on_comparisons;
        simpl; eauto; f_equal.
      * destruct (Z.eq_dec (decimal_value 0 digits) (2 ^ 63)) as [->|Hne]; [reflexivity|].
        rewrite (wrap64_in_range (decimal_value 0 digits))
          by (unfold in_int64, min_int64, max_int64; lia).
        apply wrap64_in_range. unfold in_int64, min_int64, max_int64. lia.
      * apply wrap64_in_range. unfold in_int64, min_int64, max_int64. lia.
    + rewrite parse_loop_too_large by (assumption || (unfold max_uint64 in *; lia)).
      unfold min_int64, max_int64, max_uint64 in *.
      destruct neg; simpl negb; simpl andb; cbv iota; cases_on_comparisons;
        simpl; eauto.
  - destruct (parse_loop_not_digits digits digits Hall 0) as [-> | ->].
    + simpl. eauto.
    + destruct neg; simpl; eauto.
Qed.

Lemma byte_of_digit_char d : 0 <= d <= 9 -> byte_of (digit_char d) = 48 + d.
Proof.
  intros H. unfold byte_of, digit_char.
  rewrite N_ascii_embedding by lia. lia.
Qed.

Lemma is_digit_digit_char d : 0 <= d <= 9 -> is_digit (digit_char d) = true.
Proof.
  intros H. unfold is_digit. rewrite byte_of_digit_char by assumption.
  apply andb_true_iff. lia.
Qed.

Lemma append_cons c (s t : string) : (String c s ++ t = String c (s ++ t))%string.
Proof. reflexivity. Qed.

Lemma decimal_value_app s1 s2 n :
  decimal_value n (s1 ++ s2) = decimal_value (decimal_value n s1) s2.
Proof.
  revert n. induction s1 as [|c s1 IH]; intros n; [reflexivity|].
  rewrite append_cons. simpl. apply IH.
Qed.

Lemma all_digits_app s1 s2 :
  all_digits (s1 ++ s2) = all_digits s1 && all_digits s2.
Proof.
  induction s1 as [|c s1 IH]; [reflexivity|].
  rewrite append_cons. simpl. rewrite IH. apply andb_assoc.
Qed.

Lemma string_app_assoc (s1 s2 s3 : string) : ((s1 ++ s2) ++ s3 = s1 ++ (s2 ++ s3))%string.
Proof.
  induction s1 as [|c s1 IH]; [reflexivity|].
  rewrite !append_cons. now rewrite IH.
Qed.

(** The accumulator of [format_loop] is a suffix of its result. *)
Lemma format_loop_acc fuel : forall u acc,
  format_loop fuel u acc = (format_loop fuel u EmptyString ++ acc)%string.
Proof.
  induction fuel as [|fuel IH]; intros u acc; simpl; [reflexivity|].
  destruct (u <? 10); [reflexivity|].
  rewrite (IH (u / 10) (String _ acc)), (IH (u / 10) (String _ EmptyString)).
  now rewrite string_app_assoc.
Qed.

(** With fuel for every digit, [format_loop] writes the decimal digits of
    its argument. *)
Lemma format_loop_digits fuel : forall u,
  0 <= u < 10 ^ Z.of_nat (S fuel) ->
  all_digits (format_loop (S fuel) u EmptyString) = true /\
  format_loop (S fuel) u EmptyString <> EmptyString /\
  decimal_value 0 (format_loop (S fuel) u EmptyString) = u.
Proof.
  induction fuel as [|fuel IH]; intros u Hu.
  - change (10 ^ Z.of_nat 1) with 10 in Hu. simpl.
    assert (Hm : u mod 10 = u) by (apply Z.mod_small; lia).
    rewrite Hm. replace (u <? 10) with true by (symmetry; lia). simpl.
    rewrite is_digit_digit_char, byte_of_digit_char by lia.
    repeat split; [discriminate|lia].
  - assert (Hm : 0 <= u mod 10 <= 9) by (pose proof (Z.mod_pos_bound u 10); lia).
    change (format_loop (S (S fuel)) u EmptyString)
      with (if u <? 10 then String (digit_char (u mod 10)) EmptyString
            else format_loop (S fuel) (u / 10) (String (digit_char (u mod 10)) EmptyString)).
    destruct (Z.ltb_spec u 10) as [Hlt|Hge].
    + simpl. rewrite is_digit_digit_char, byte_of_digit_char by lia.
      rewrite Z.mod_small by lia. repeat split; [discriminate|lia].
    + rewrite format_loop_acc.
      assert (Hdiv : 0 <= u / 10 < 10 ^ Z.of_nat (S fuel)).
      { split; [apply Z.div_pos; lia|].
        apply Z.div_lt_upper_bound; [lia|].
        rewrite (Nat2Z.inj_succ (S fuel)), Z.pow_succ_r in Hu by lia. lia. }
      destruct (IH (u / 10) Hdiv) as (Hall & Hne & Hval).
      rewrite all_digits_app, decimal_value_app, Hall, Hval.
      cbn [all_digits decimal_value andb].
      rewrite is_digit_digit_char, byte_of_digit_char by lia.
      repeat split.
      * destruct (format_loop (S fuel) (u / 10) EmptyString); [congruence|discriminate].
      * pose proof (Z.div_mod u 10). lia.
Qed.

Lemma FormatUint_digits u :
  0 <= u <= max_uint64 ->
  all_digits (FormatUint u) = true /\ FormatUint u <> EmptyString /\
  decimal_value 0 (FormatUint u) = u.
Proof.
  intros Hu. apply (format_loop_digits 19).
  unfold max_uint64 in Hu. change (10 ^ Z.of_nat 20) with 100000000000000000000. lia.
Qed.

Lemma digit_not_sign c :
  is_digit c = true -> Ascii.eqb c "+" = false /\ Ascii.eqb c "-" = false.
Proof.
  unfold is_digit. intros H. apply andb_true_iff in H as [H1 H2].
  split; apply Ascii.eqb_neq; intros ->; vm_compute in H1; discriminate.
Qed.

(** What [FormatInt] prints is the literal of its argument. *)
Lemma literal_value_FormatInt v : in_int64 v -> literal_value (FormatInt v) = Some v.
Proof.
  unfold in_int64, min_int64, max_int64, FormatInt. intros Hv.
  destruct (Z.ltb_spec v 0) as [Hneg|Hpos].
  - rewrite Z.mod_small by lia.
    destruct (FormatUint_digits (- v)) as (Hall & Hne & Hval); [unfold max_uint64; lia|].
    unfold literal_value. change (Ascii.eqb "-" "+") with false.
    change (Ascii.eqb "-" "-") with true. cbv iota. simpl orb. cbv iota.
    destruct (FormatUint (- v)) as [|c r] eqn:E; [congruence|].
    rewrite Hall, Hval. unfold min_int64, max_int64.
    cases_on_comparisons. simpl. f_equal. lia.
  - rewrite Z.mod_small by lia.
    destruct (FormatUint_digits v) as (Hall & Hne & Hval); [unfold max_uint64; lia|].
    unfold literal_value.
    destruct (FormatUint v) as [|c r] eqn:E; [congruence|].
    assert (Hc : is_digit c = true) by (simpl in Hall; now apply andb_true_iff in Hall).
    destruct (digit_not_sign c Hc) as [-> ->]. simpl orb. cbv iota.
    rewrite Hall, Hval. unfold min_int64, max_int64.
    cases_on_comparisons. reflexivity.
Qed.

Lemma FormatInt_not_empty v : in_int64 v -> FormatInt v <> EmptyString.
Proof.
  intros Hv E. pose proof (literal_value_FormatInt v Hv) as H.
  rewrite E in H. discriminate.
Qed.

End Strconv.

(** ** The value accessors *)

Lemma Value_set_Value v m : Value (set_Value v m) = v.
Proof. reflexivity. Qed.

(** [GetValueInt64] in terms of the literal the cached value is. *)
Lemma GetValueInt64_cases m :
  match literal_value (Value m) with
  | Some v => GetValueInt64 m = inl v
  | None =>
      if String.eqb (Value m) EmptyString then GetValueInt64 m = inl 0
      else exists e, GetValueInt64 m = inr (panic_NumError e)
  end.
Proof.
  unfold GetValueInt64. pose proof (ParseInt_literal (Value m)) as H.
  destruct (literal_value (Value m)) as [v|] eqn:E.
  - destruct (String.eqb_spec (Value m) EmptyString) as [Hempty|_].
    + rewrite Hempty in E. discriminate.
    + now rewrite H.
  - destruct (String.eqb (Value m) EmptyString); [reflexivity|].
    destruct H as (v & e & ->). eauto.
Qed.

(** C7, as the specification has it, does not hold: the empty string is not
    an integer literal, and yet [GetValueInt64] does not fail on the zero
    Mutex, whose cached value is empty. *)
Lemma GetValueInt64_empty_not_invalid :
  ~ (GetValueInt64_fails Mutex_zero <-> literal_value (Value Mutex_zero) = None).
Proof.
  intros [_ H]. destruct (H eq_refl) as (p & Hp & _). discriminate.
Qed.

(** C7, amended: [GetValueInt64] fails with InvalidValue if and only if the
    cached value is not empty and is not a base-10 signed 64-bit integer
    literal; when the cached value is such a literal, the call returns the
    integer it writes. *)
Theorem GetValueInt64_InvalidValue m :
  (GetValueInt64_fails m <-> Value m <> EmptyString /\ literal_value (Value m) = None) /\
  match literal_value (Value m) with
  | Some v => GetValueInt64 m = inl v
  | None => True
  end.
Proof.
  pose proof (GetValueInt64_cases m) as H. unfold GetValueInt64_fails.
  destruct (literal_value (Value m)) as [v|] eqn:E.
  - split; [|assumption]. split.
    + intros (p & Hp & _). congruence.
    + intros [_ Hn]. discriminate.
  - split; [|exact I]. destruct (String.eqb_spec (Value m) EmptyString) as [Hempty|Hne].
    + split.
      * intros (p & Hp & _). congruence.
      * intros [Hn _]. contradiction.
    + destruct H as (e & He). split.
      * intros _. now split.
      * intros _. exists (panic_NumError e). now split.
Qed.

(** C8: for every [v] of the signed 64-bit range, [SetValueInt64 v] then
    [GetValueInt64] returns [v]; for every string [s], [SetValueString s] then
    [GetValueString] returns [s]. *)
Theorem value_round_trip m v (Hv : in_int64 v) :
  GetValueInt64 (SetValueInt64 m v) = inl v /\
  forall s, GetValueString (SetValueString m s) = s.
Proof.
  split; [|reflexivity].
  pose proof (GetValueInt64_cases (SetValueInt64 m v)) as H.
  unfold SetValueInt64 in *. rewrite Value_set_Value in H.
  now rewrite literal_value_FormatInt in H.
Qed.

Lemma value_round_trip_witness :
  in_int64 min_int64 /\
  GetValueInt64 (SetValueInt64 Mutex_zero min_int64) = inl min_int64 /\
  forall s, GetValueString (SetValueString Mutex_zero s) = s.
Proof.
  assert (H : in_int64 min_int64) by (unfold in_int64, min_int64, max_int64; lia).
  split; [exact H|]. exact (value_round_trip Mutex_zero min_int64 H).
Defined.

(** C10: with an empty cached value [GetValueInt64] returns 0 and does not
    fail; whenever it fails, the cached value is a non-empty string that is not
    a signed 64-bit integer literal. *)
Theorem empty_value_reads_zero m :
  GetValueInt64 (set_Value EmptyString m) = inl 0 /\
  match GetValueInt64 m with
  | inl _ => True
  | inr p =>
      Value m <> EmptyString /\ literal_value (Value m) = None /\
      failure_of p = InvalidValue
  end.
Proof.
  split; [reflexivity|].
  pose proof (GetValueInt64_cases m) as H.
  destruct (literal_value (Value m)) as [v|] eqn:E; [now rewrite H|].
  destruct (String.eqb_spec (Value m) EmptyString) as [Hempty|Hne]; [now rewrite H|].
  destruct H as (e & ->). now repeat split.
Qed.

(** ** What the methods do to the Mutex *)

Lemma same_session_refl m : same_session m m.
Proof. now repeat split. Qed.

Lemma same_session_trans m1 m2 m3 :
  same_session m1 m2 -> same_session m2 m3 -> same_session m1 m3.
Proof. unfold same_session. intuition congruence. Qed.

Lemma same_session_set_Value v m : same_session m (set_Value v m).
Proof. now repeat split. Qed.

Create HintDb session.
#[local] Hint Resolve same_session_refl same_session_set_Value : session.

Lemma bind_after {A B : Type} (x : Outcome A) (f : A -> Mutex -> World -> Outcome B) m' :
  after (bind x f) = Some m' ->
  (exists p w, x = Panics p m' w) \/
  (exists a m w, x = Return a m w /\ after (f a m w) = Some m').
Proof.
  destruct x as [a m w|p m w|]; simpl; intros H.
  - right. eauto.
  - left. injection H as <-. eauto.
  - discriminate.
Qed.

Lemma bind_Return {A B : Type} (x : Outcome A) (f : A -> Mutex -> World -> Outcome B) b m' w' :
  bind x f = Return b m' w' ->
  exists a m w, x = Return a m w /\ f a m w = Return b m' w'.
Proof.
  destruct x as [a m w|p m w|]; simpl; intros H; [eauto|discriminate..].
Qed.

Lemma initialization_initialized fuel m w :
  initialized m = true -> initialization fuel m w = Return tt m w.
Proof. unfold initialization. now intros ->. Qed.

Lemma tryLock_same_session m w m' :
  after (tryLock m w) = Some m' -> same_session m m'.
Proof.
  unfold tryLock.
  destruct (UnixNano w) as [lastwrite w1].
  destruct (if 0 <? Expiry m then UnixNano w1 else (0, w1)) as [expired w2].
  destruct (DDBSession m); [|simpl; intros [= <-]; auto with session].
  destruct (call_UpdateItem _ w2) as [[attributes|err] w3];
    [|simpl; intros [= <-]; auto with session].
  destruct (attributes !! "Value"%string) as [[v|n]|]; simpl; intros [= <-];
    auto with session.
Qed.

Lemma tryUnlock_same_mutex m w m' :
  after (tryUnlock m w) = Some m' -> m' = m.
Proof.
  unfold tryUnlock.
  destruct (UnixNano w) as [lastwrite w1].
  destruct (DDBSession m); [|simpl; congruence].
  destruct (call_UpdateItem _ w1) as [[attributes|err] w2]; simpl; congruence.
Qed.

Lemma Lock_turn_same_session started m w :
  match Lock_turn started m w with
  | Acquired m' _ | Retry m' _ | Failed _ m' _ => same_session m m'
  | Stuck => True
  end.
Proof.
  unfold Lock_turn. pose proof (tryLock_same_session m w) as H.
  destruct (tryLock m w) as [[err|] m1 w1|p m1 w1|]; simpl in H; auto.
  destruct (is_ConditionalCheckFailed err); auto.
  destruct (UnixNano w1) as [t w2].
  destruct (started <? wrap64 (t - timeout m1)); auto.
  destruct (Intn 10 w2) as [r w3]. auto.
Qed.

Lemma Lock_loop_same_session fuel : forall started m w m',
  after (Lock_loop fuel started m w) = Some m' -> same_session m m'.
Proof.
  induction fuel as [|fuel IH]; simpl; intros started m w m' H; [discriminate|].
  pose proof (Lock_turn_same_session started m w) as Ht.
  destruct (Lock_turn started m w) as [m1 w1|m1 w1|p m1 w1|]; simpl in H.
  - now injection H as <-.
  - eapply same_session_trans; eauto.
  - now injection H as <-.
  - discriminate.
Qed.

Lemma Lock_same_session fuel m w m' :
  initialized m = true -> after (Lock fuel m w) = Some m' -> same_session m m'.
Proof.
  intros Hi. unfold Lock. rewrite initialization_initialized by assumption. simpl.
  destruct (UnixNano w) as [started w1]. apply Lock_loop_same_session.
Qed.

Lemma Unlock_same_mutex fuel m w m' :
  initialized m = true -> after (Unlock fuel m w) = Some m' -> m' = m.
Proof.
  intros Hi. unfold Unlock. rewrite initialization_initialized by assumption. simpl.
  pose proof (tryUnlock_same_mutex m w) as H.
  destruct (tryUnlock m w) as [[err|] m1 w1|p m1 w1|]; simpl in *;
    try destruct (is_ConditionalCheckFailed err); simpl; intros [= <-]; auto.
Qed.

(** An operation on an initialized client leaves its session as it is. *)
Lemma operation_same_session m m' :
  initialized m = true -> operation m m' -> same_session m m'.
Proof.
  intros Hi Hop. destruct Hop as [fuel w m' H|fuel w m' H|fuel w m' H|fuel w m' H
    |fuel v w m' H| | | | | | | | |]; try (now repeat split).
  - rewrite initialization_initialized in H by assumption.
    injection H as <-. apply same_session_refl.
  - eapply Lock_same_session; eauto.
  - apply Unlock_same_mutex in H as ->; auto with session.
  - unfold LockAndGetValueString in H. apply bind_after in H as [(p & w1 & Hp)|(a & m1 & w1 & Hr & Ha)].
    + eapply Lock_same_session; [eassumption|]. now rewrite Hp.
    + injection Ha as <-. eapply Lock_same_session; [eassumption|]. now rewrite Hr.
  - unfold SetValueStringAndUnlock in H.
    apply Unlock_same_mutex in H as ->; [|exact Hi]. apply same_session_set_Value.
Qed.

Lemma operations_same_session m m' :
  initialized m = true -> operations m m' -> same_session m m'.
Proof.
  intros Hi Hops. induction Hops as [|m1 m2 Hops IH Hop]; [apply same_session_refl|].
  eapply same_session_trans; [exact IH|].
  apply operation_same_session; [|assumption].
  destruct IH as (-> & _). assumption.
Qed.

Lemma draw_id_nonzero fuel : forall m w m' w',
  draw_id fuel m w = Return tt m' w' ->
  id m' <> 0 /\ initialized m' = initialized m /\ timeoutSet m' = timeoutSet m.
Proof.
  induction fuel as [|fuel IH]; intros m w m' w'; simpl.
  - destruct (Z.eqb_spec (id m) 0); [discriminate|]. now intros [= <- <-].
  - destruct (Z.eqb_spec (id m) 0); [|now intros [= <- <-]].
    destruct (Int63 w) as [r w1]. intros H. apply IH in H. exact H.
Qed.

(** A first initialization that completes leaves the client initialized,
    with a nonzero identifier. *)
Lemma initialization_first fuel m w m' w' :
  initialized m = false -> initialization fuel m w = Return tt m' w' ->
  initialized m' = true /\ id m' <> 0.
Proof.
  intros Hi. unfold initialization. rewrite Hi. intros H.
  apply bind_Return in H as ([] & m1 & w1 & _ & H).
  apply bind_Return in H as ([] & m2 & w2 & _ & H).
  apply bind_Return in H as ([] & m3 & w3 & _ & H).
  destruct (UnixNano w3) as [seed w4].
  apply bind_Return in H as ([] & m4 & w4' & Hd & H).
  apply draw_id_nonzero in Hd as (Hid & _ & _).
  injection H as <- <-.
  destruct (timeoutSet m4); now split.
Qed.

(** C9: once the first initialization of a client has completed, its session
    identifier is nonzero, and no later operation (repeated initialization,
    Lock, Unlock, the value accessors, WithTimeout, assignments to the exported
    fields), whether it returns or panics, changes it. *)
Theorem session_id_invariant fuel m0 w0 m1 w1 m2
    (Hfirst : initialized m0 = false)
    (Hinit : initialization fuel m0 w0 = Return tt m1 w1)
    (Hops : operations m1 m2) :
  id m1 <> 0 /\ id m2 = id m1 /\ id m2 <> 0 /\ initialized m2 = true.
Proof.
  destruct (initialization_first fuel m0 w0 m1 w1 Hfirst Hinit) as [Hi Hid].
  destruct (operations_same_session m1 m2 Hi Hops) as (Hi2 & Hid2 & _).
  repeat split; congruence.
Qed.

Lemma session_id_invariant_witness :
  initialized Mutex_zero = false /\
  initialization 10 Mutex_zero calm_world = Return tt first_client first_world /\
  operations first_client later_client /\
  id first_client <> 0 /\ id later_client = id first_client /\
  id later_client <> 0 /\ initialized later_client = true.
Proof.
  assert (H1 : initialized Mutex_zero = false) by reflexivity.
  assert (H2 : initialization 10 Mutex_zero calm_world = Return tt first_client first_world)
    by (vm_compute; reflexivity).
  assert (H3 : operations first_client later_client).
  { apply (ops_more _ (SetValueInt64 first_client 5)).
    - apply (ops_more _ first_client); [apply ops_none|apply op_SetValueInt64].
    - apply (op_Lock _ 10 first_world). vm_compute. reflexivity. }
  split; [exact H1|]. split; [exact H2|]. split; [exact H3|].
  exact (session_id_invariant 10 Mutex_zero calm_world first_client first_world
           later_client H1 H2 H3).
Defined.

(** ** The requests and what DynamoDB makes of them *)

Lemma UpdateItem_failed inp d e d' : UpdateItem inp d = (inr e, d') -> d' = d.
Proof.
  unfold UpdateItem. cbv zeta.
  destruct (eval _ _ _ (ConditionExpression inp)) as [[|]|];
    try destruct (apply_set _ _ (UpdateExpression inp) _); congruence.
Qed.

Lemma lock_names_lookup :
  lock_names !! "#name"%string = Some "Name"%string /\
  lock_names !! "#id"%string = Some "LockerID"%string /\
  lock_names !! "#lastwrite"%string = Some "LastWrite"%string.
Proof. repeat split. Qed.

Lemma unlock_names_lookup :
  unlock_names !! "#name"%string = Some "Name"%string /\
  unlock_names !! "#id"%string = Some "LockerID"%string /\
  unlock_names !! "#lastwrite"%string = Some "LastWrite"%string /\
  unlock_names !! "#value"%string = Some "Value"%string.
Proof. repeat split. Qed.

Lemma eval_COr names values (item : Item) c1 c2 :
  eval names values item (COr c1 c2) =
    match eval names values item c1, eval names values item c2 with
    | Some b1, Some b2 => Some (b1 || b2)
    | _, _ => None
    end.
Proof. reflexivity. Qed.

(** The truth of the four-way condition of [tryLock] on an item. *)
Lemma eval_lock_condition names values (item : Item) i :
  names !! "#name"%string = Some "Name"%string ->
  names !! "#id"%string = Some "LockerID"%string ->
  values !! ":zero"%string = Some (AttrN 0) ->
  values !! ":id"%string = Some (AttrN i) ->
  eval names values item lock_condition =
    Some (bool_decide (item !! "Name"%string = None)
          || bool_decide (item !! "LockerID"%string = None)
          || match item !! "LockerID"%string with
             | Some x => attr_eqb x (AttrN 0)
             | None => false
             end
          || match item !! "LockerID"%string with
             | Some x => attr_eqb x (AttrN i)
             | None => false
             end).
Proof.
  intros Hn Hi Hz Hv. unfold lock_condition. cbn [eval]. unfold compare.
  now rewrite Hn, Hi, Hz, Hv.
Qed.

(** The truth of the expiry clause on an item. *)
Lemma eval_expired names values (item : Item) i e :
  names !! "#id"%string = Some "LockerID"%string ->
  names !! "#lastwrite"%string = Some "LastWrite"%string ->
  values !! ":id"%string = Some (AttrN i) ->
  values !! ":nowminusexpiry"%string = Some (AttrN e) ->
  eval names values item
    (CAnd (CmpNe "#id" ":id") (CmpLt "#lastwrite" ":nowminusexpiry")) =
    Some (negb match item !! "LockerID"%string with
               | Some x => attr_eqb x (AttrN i)
               | None => false
               end
          && match item !! "LastWrite"%string with
             | Some x => attr_ltb x (AttrN e)
             | None => false
             end).
Proof.
  intros Hi Hl Hv He. cbn [eval]. unfold compare.
  now rewrite Hi, Hl, Hv, He.
Qed.

Lemma eval_unlock_condition names values (item : Item) i :
  names !! "#name"%string = Some "Name"%string ->
  names !! "#id"%string = Some "LockerID"%string ->
  values !! ":id"%string = Some (AttrN i) ->
  eval names values item unlock_condition =
    Some (bool_decide (item !! "Name"%string = None)
          || match item !! "LockerID"%string with
             | Some x => attr_eqb x (AttrN i)
             | None => false
             end).
Proof.
  intros Hn Hi Hv. unfold unlock_condition. cbn [eval]. unfold compare.
  now rewrite Hn, Hi, Hv.
Qed.

(** On a store whose records carry their key, the record is absent exactly
    when the item the condition is checked on has no [Name]. *)
Lemma record_absent d k :
  store_ok d ->
  bool_decide (default (∅ : Item) (d !! k) !! "Name"%string = None)
  = bool_decide (d !! k = None).
Proof.
  intros Hok. destruct (d !! k) as [item|] eqn:E; simpl.
  - rewrite (Hok k item E). now rewrite !bool_decide_eq_false_2.
  - rewrite lookup_empty. now rewrite !bool_decide_eq_true_2.
Qed.

(** What DynamoDB does with the request of [tryLock]: it writes the acquired
    record when the acquire condition of the specification holds, and refuses
    the update otherwise. *)
Lemma UpdateItem_lock_request m lastwrite now_ d :
  store_ok d ->
  UpdateItem (lock_request m lastwrite now_) d =
    if may_acquire m now_ (record_of m d)
    then (inl (acquired_record m lastwrite (record_of m d)),
          <[(DDBTableName m, Name m) := acquired_record m lastwrite (record_of m d)]> d)
    else (inr (awserr ErrCodeConditionalCheckFailedException), d).
Proof.
  intros Hok. unfold UpdateItem, lock_request, record_of, acquired_record. cbv zeta.
  cbn [ConditionExpression ExpressionAttributeNames ExpressionAttributeValues Key
       ReturnAllNew UpdateExpression TableName].
  destruct lock_names_lookup as (Hn & Hi & Hl).
  set (k := (DDBTableName m, Name m)).
  pose proof (record_absent d k Hok) as Habs.
  set (old := default ∅ (d !! k)) in *.
  assert (Hset : forall values : gmap string AttributeValue,
    values !! ":lastwrite"%string = Some (AttrN lastwrite) ->
    values !! ":id"%string = Some (AttrN (id m)) ->
    apply_set lock_names values [("#lastwrite"%string, ":lastwrite"%string);
                                 ("#id"%string, ":id"%string)]
      (<["Name"%string := AttrS (Name m)]> old)
    = Some (<["LockerID"%string := AttrN (id m)]> (<["LastWrite"%string := AttrN lastwrite]>
              (<["Name"%string := AttrS (Name m)]> old)))).
  { intros values H1 H2. cbn [apply_set]. now rewrite Hl, H1, Hi, H2. }
  assert (Hold : may_acquire m now_ (d !! k) =
    bool_decide (d !! k = None)
    || bool_decide (old !! "LockerID"%string = None)
    || match old !! "LockerID"%string with Some x => attr_eqb x (AttrN 0) | None => false end
    || match old !! "LockerID"%string with Some x => attr_eqb x (AttrN (id m)) | None => false end
    || ((0 <? Expiry m)
        && negb match old !! "LockerID"%string with
                | Some x => attr_eqb x (AttrN (id m)) | None => false end
        && match old !! "LastWrite"%string with
           | Some x => attr_ltb x (AttrN (wrap64 (now_ - Expiry m))) | None => false end)).
  { unfold may_acquire, old. destruct (d !! k) as [item|]; simpl; [|reflexivity].
    destruct (item !! "LockerID"%string) as [x|]; reflexivity. }
  rewrite Hold. clear Hold. rewrite <- Habs.
  destruct (0 <? Expiry m) eqn:HE.
  - unfold or_expired. rewrite eval_COr.
    rewrite (eval_lock_condition _ _ old (id m)) by (assumption || reflexivity).
    rewrite (eval_expired _ _ old (id m) (wrap64 (now_ - Expiry m)))
      by (assumption || reflexivity).
    rewrite Hset by reflexivity. reflexivity.
  - rewrite (eval_lock_condition _ _ old (id m)) by (assumption || reflexivity).
    rewrite Hset by reflexivity. simpl andb. rewrite orb_false_r. reflexivity.
Qed.

(** What DynamoDB does with the request of [tryUnlock]: it writes the
    released record when the release condition of the specification holds, and
    refuses the update otherwise. *)
Lemma UpdateItem_unlock_request m lastwrite d :
  store_ok d ->
  UpdateItem (unlock_request m lastwrite) d =
    if may_release m (record_of m d)
    then (inl ∅, <[(DDBTableName m, Name m) := released_record m lastwrite (record_of m d)]> d)
    else (inr (awserr ErrCodeConditionalCheckFailedException), d).
Proof.
  intros Hok. unfold UpdateItem, unlock_request, record_of, released_record. cbv zeta.
  cbn [ConditionExpression ExpressionAttributeNames ExpressionAttributeValues Key
       ReturnAllNew UpdateExpression TableName].
  destruct unlock_names_lookup as (Hn & Hi & Hl & Hv).
  set (k := (DDBTableName m, Name m)).
  pose proof (record_absent d k Hok) as Habs.
  set (old := default ∅ (d !! k)) in *.
  rewrite (eval_unlock_condition _ _ old (id m)) by (assumption || reflexivity).
  assert (Hold : may_release m (d !! k) =
    bool_decide (d !! k = None)
    || match old !! "LockerID"%string with Some x => attr_eqb x (AttrN (id m)) | None => false end).
  { unfold may_release, old. destruct (d !! k) as [item|]; reflexivity. }
  rewrite Hold, <- Habs. cbn [apply_set]. rewrite Hl, Hi, Hv.
  reflexivity.
Qed.

Lemma lock_request_no_expiry m lastwrite e e' :
  (0 <? Expiry m) = false -> lock_request m lastwrite e = lock_request m lastwrite e'.
Proof. unfold lock_request. now intros ->. Qed.

(** [tryLock] with a DynamoDB handle: the clock is read, once or twice, and
    the request is sent. *)
Lemma tryLock_unfold m w s :
  DDBSession m = Some s ->
  let lastwrite := now w (clock_reads w) in
  let now_ := now w (S (clock_reads w)) in
  let w1 := set_clock_reads
              (if 0 <? Expiry m then S (S (clock_reads w)) else S (clock_reads w)) w in
  tryLock m w =
    match call_UpdateItem (lock_request m lastwrite now_) w1 with
    | (inr err, w2) => Return (Some err) m w2
    | (inl attributes, w2) =>
        match attributes !! "Value"%string with
        | Some (AttrS v) => Return None (set_Value v m) w2
        | Some (AttrN _) => Panics panic_nil_dereference m w2
        | None => Return None m w2
        end
    end.
Proof.
  intros Hs. unfold tryLock, UnixNano. rewrite Hs.
  destruct (0 <? Expiry m) eqn:HE; [reflexivity|].
  now rewrite (lock_request_no_expiry m _ 0 (now w (S (clock_reads w)))).
Qed.

Lemma call_UpdateItem_requests inp w :
  requests (call_UpdateItem inp w).2 = requests w ++ [inp].
Proof.
  unfold call_UpdateItem.
  destruct (match fault w (length (requests w)) with
            | Some e => _ | None => _ end) as [res d']. reflexivity.
Qed.

Lemma tryLock_requests m w s :
  DDBSession m = Some s ->
  requests (world_after (tryLock m w) w) =
    requests w ++ [lock_request m (now w (clock_reads w)) (now w (S (clock_reads w)))].
Proof.
  intros Hs. rewrite (tryLock_unfold m w s Hs). cbv zeta.
  match goal with |- context [call_UpdateItem ?i ?w1] =>
    pose proof (call_UpdateItem_requests i w1) as H;
    destruct (call_UpdateItem i w1) as [[attributes|err] w2] end; simpl in H.
  - destruct (attributes !! "Value"%string) as [[v|n]|]; exact H.
  - exact H.
Qed.

Lemma Lock_turn_requests started m w :
  requests (world_of_turn (Lock_turn started m w) w) =
  requests (world_after (tryLock m w) w).
Proof.
  unfold Lock_turn.
  destruct (tryLock m w) as [[err|] m1 w1|p m1 w1|]; simpl; try reflexivity.
  destruct (is_ConditionalCheckFailed err); [|reflexivity].
  destruct (started <? wrap64 (now w1 (clock_reads w1) - timeout m1)); reflexivity.
Qed.

(** ** An attempt and a release that reach the table *)

Lemma acquired_record_other m t record (a : string) :
  a <> "LockerID"%string -> a <> "LastWrite"%string -> a <> "Name"%string ->
  acquired_record m t record !! a = default (∅ : Item) record !! a.
Proof.
  intros H1 H2 H3. unfold acquired_record. now rewrite !lookup_insert_ne by congruence.
Qed.

Lemma stored_default a m d :
  default (∅ : Item) (record_of m d) !! a = stored a m d.
Proof.
  unfold stored. destruct (record_of m d); [reflexivity|apply lookup_empty].
Qed.

(** [tryLock], when its request reaches the table. *)
Lemma tryLock_reached m w s :
  DDBSession m = Some s -> fault w (length (requests w)) = None -> store_ok (db w) ->
  tryLock m w =
    if may_acquire m (now w (S (clock_reads w))) (record_of m (db w))
    then match stored "Value" m (db w) with
         | Some (AttrS v) => Return None (set_Value v m) (acquired_world m w)
         | Some (AttrN _) => Panics panic_nil_dereference m (acquired_world m w)
         | None => Return None m (acquired_world m w)
         end
    else Return (Some (awserr ErrCodeConditionalCheckFailedException)) m
                (lock_refused_world m w).
Proof.
  intros Hs Hf Hok. rewrite (tryLock_unfold m w s Hs). cbv zeta.
  unfold call_UpdateItem. cbn [db requests fault set_clock_reads]. rewrite Hf.
  rewrite UpdateItem_lock_request by assumption.
  destruct (may_acquire _ _ _); [|reflexivity].
  rewrite acquired_record_other by discriminate. rewrite stored_default.
  destruct (stored "Value" m (db w)) as [[v|n]|]; reflexivity.
Qed.

Lemma tryLock_fault m w s e :
  DDBSession m = Some s -> fault w (length (requests w)) = Some e ->
  tryLock m w = Return (Some e) m (lock_refused_world m w).
Proof.
  intros Hs Hf. rewrite (tryLock_unfold m w s Hs). cbv zeta.
  unfold call_UpdateItem. cbn [db requests fault set_clock_reads]. now rewrite Hf.
Qed.

Lemma Lock_turn_db started m w :
  db (world_of_turn (Lock_turn started m w) w) = db (world_after (tryLock m w) w).
Proof.
  unfold Lock_turn.
  destruct (tryLock m w) as [[err|] m1 w1|p m1 w1|]; simpl; try reflexivity.
  destruct (is_ConditionalCheckFailed err); [|reflexivity].
  destruct (started <? wrap64 (now w1 (clock_reads w1) - timeout m1)); reflexivity.
Qed.

Lemma acquired_record_written m t record :
  acquired_record m t record !! "LockerID"%string = Some (AttrN (id m)) /\
  acquired_record m t record !! "LastWrite"%string = Some (AttrN t).
Proof.
  unfold acquired_record. split.
  - apply lookup_insert_eq.
  - rewrite lookup_insert_ne by discriminate. apply lookup_insert_eq.
Qed.

(** [tryLock] with a DynamoDB handle is one call of [UpdateItem]. *)
Lemma tryLock_call m w s :
  DDBSession m = Some s ->
  let call := call_UpdateItem (attempt_request m w) (set_clock_reads (attempt_reads m w) w) in
  tryLock m w =
    match call.1 with
    | inr err => Return (Some err) m call.2
    | inl attributes =>
        match attributes !! "Value"%string with
        | Some (AttrS v) => Return None (set_Value v m) call.2
        | Some (AttrN _) => Panics panic_nil_dereference m call.2
        | None => Return None m call.2
        end
    end /\
  world_after (tryLock m w) w = call.2.
Proof.
  intros Hs. cbv zeta. rewrite (tryLock_unfold m w s Hs). cbv zeta.
  unfold attempt_request, attempt_reads.
  destruct (call_UpdateItem _ _) as [[attributes|err] w2]; cbn [fst snd];
    [|now split].
  destruct (attributes !! "Value"%string) as [[v|n]|]; now split.
Qed.

(** C2: every acquisition attempt of [Lock] (a turn of its loop, which calls
    [tryLock]) is exactly one call of [UpdateItem]: the result of the call
    decides how the attempt ends, and the store and the log of requests the
    call leaves are those the attempt leaves.  The condition of the request is
    [record absent OR HolderID absent OR HolderID = 0 OR HolderID = SessionID],
    with [OR (HolderID <> SessionID AND LastWrite < now - Expiry)] if and only
    if [Expiry > 0].  When the request reaches the table and the condition
    holds, the record of the lock is rewritten with [HolderID = SessionID] and
    [LastWrite = now], and the attempt succeeds; when the condition does not
    hold, the store is left as it is and the attempt returns the failed
    condition.  ([now] is the clock at the time each value is computed: the
    first reading for [LastWrite], the second one for the expiry.) *)
Theorem tryLock_conditional_update m w s (Hs : DDBSession m = Some s) :
  let lastwrite := now w (clock_reads w) in
  let now_ := now w (S (clock_reads w)) in
  let request := lock_request m lastwrite now_ in
  let call := call_UpdateItem request (set_clock_reads (attempt_reads m w) w) in
  tryLock m w =
    match call.1 with
    | inr err => Return (Some err) m call.2
    | inl attributes =>
        match attributes !! "Value"%string with
        | Some (AttrS v) => Return None (set_Value v m) call.2
        | Some (AttrN _) => Panics panic_nil_dereference m call.2
        | None => Return None m call.2
        end
    end /\
  requests call.2 = requests w ++ [request] /\
  (forall started,
     db (world_of_turn (Lock_turn started m w) w) = db call.2 /\
     requests (world_of_turn (Lock_turn started m w) w) = requests w ++ [request]) /\
  ConditionExpression request =
    (if 0 <? Expiry m then or_expired lock_condition else lock_condition) /\
  (forall d, store_ok d ->
     UpdateItem request d =
       if may_acquire m now_ (record_of m d)
       then (inl (acquired_record m lastwrite (record_of m d)),
             <[(DDBTableName m, Name m) := acquired_record m lastwrite (record_of m d)]> d)
       else (inr (awserr ErrCodeConditionalCheckFailedException), d)) /\
  (forall record,
     acquired_record m lastwrite record !! "LockerID"%string = Some (AttrN (id m)) /\
     acquired_record m lastwrite record !! "LastWrite"%string = Some (AttrN lastwrite)) /\
  (fault w (length (requests w)) = None -> store_ok (db w) ->
     tryLock m w =
       if may_acquire m now_ (record_of m (db w))
       then match stored "Value" m (db w) with
            | Some (AttrS v) => Return None (set_Value v m) (acquired_world m w)
            | Some (AttrN _) => Panics panic_nil_dereference m (acquired_world m w)
            | None => Return None m (acquired_world m w)
            end
       else Return (Some (awserr ErrCodeConditionalCheckFailedException)) m
                   (lock_refused_world m w)) /\
  db (acquired_world m w)
    = <[(DDBTableName m, Name m) := acquired_record m lastwrite (record_of m (db w))]> (db w) /\
  db (lock_refused_world m w) = db w.
Proof.
  cbv zeta. destruct (tryLock_call m w s Hs) as [Hcall Hworld].
  pose proof (call_UpdateItem_requests (attempt_request m w)
                (set_clock_reads (attempt_reads m w) w)) as Hreq.
  cbn [requests set_clock_reads] in Hreq.
  split; [exact Hcall|]. split; [exact Hreq|].
  split.
  { intros started. rewrite Lock_turn_db, Lock_turn_requests, Hworld.
    split; [reflexivity|exact Hreq]. }
  split; [reflexivity|].
  split; [intros d Hok; now apply UpdateItem_lock_request|].
  split; [intros record; apply acquired_record_written|].
  split; [intros Hf Hok; exact (tryLock_reached m w s Hs Hf Hok)|].
  split; reflexivity.
Qed.

Lemma tryLock_conditional_update_witness :
  DDBSession contender = Some calm_session /\
  let request := attempt_request contender contender_world in
  let call := call_UpdateItem request
                (set_clock_reads (attempt_reads contender contender_world) contender_world) in
  tryLock contender contender_world
    = Return (Some (awserr ErrCodeConditionalCheckFailedException)) contender call.2 /\
  requests call.2 = requests contender_world ++ [request] /\
  db call.2 = db held_world.
Proof.
  assert (H : DDBSession contender = Some calm_session) by (vm_compute; reflexivity).
  split; [exact H|]. cbv zeta.
  destruct (tryLock_conditional_update contender contender_world calm_session H)
    as (Hcall & Hreq & _).
  split; [|split; [exact Hreq|vm_compute; reflexivity]].
  rewrite Hcall. vm_compute. reflexivity.
Defined.

(** ** Initialization does not touch the store *)

Lemma same_store_refl w : same_store w w.
Proof. now repeat split. Qed.

Lemma same_store_trans w1 w2 w3 :
  same_store w1 w2 -> same_store w2 w3 -> same_store w1 w3.
Proof. unfold same_store. intuition congruence. Qed.

Lemma wait_active_same_store fuel : forall m w m' w',
  wait_active fuel m w = Return tt m' w' -> m' = m /\ same_store w w'.
Proof.
  induction fuel as [|fuel IH]; intros m w m' w'; simpl; [discriminate|].
  destruct (describe_table w (describes w)) as [[| |st]|]; try discriminate.
  - intros [= <- <-]. now repeat split.
  - intros H. apply IH in H as [-> H]. split; [reflexivity|].
    eapply same_store_trans; [|exact H]. now repeat split.
Qed.

Lemma draw_id_same_store fuel : forall m w m' w',
  draw_id fuel m w = Return tt m' w' -> same_store w w' /\ DDBSession m' = DDBSession m.
Proof.
  induction fuel as [|fuel IH]; intros m w m' w'; simpl.
  - destruct (id m =? 0); [discriminate|]. intros [= <- <-]. split; [apply same_store_refl|reflexivity].
  - destruct (id m =? 0); [|intros [= <- <-]; split; [apply same_store_refl|reflexivity]].
    intros H. apply IH in H as [H Hs]. split; [|exact Hs].
    eapply same_store_trans; [|exact H]. now repeat split.
Qed.

Lemma ensure_table_same m w m' w' :
  ensure_table m w = Return tt m' w' -> m' = m /\ w' = w.
Proof.
  unfold ensure_table.
  destruct (bool_decide _); [now intros [= <- <-]|].
  destruct (create_table w) as [[code|msg]|]; try discriminate; [|now intros [= <- <-]].
  destruct (String.eqb code _); [now intros [= <- <-]|discriminate].
Qed.

Lemma initialization_same_store fuel m w m' w' :
  initialization fuel m w = Return tt m' w' -> same_store w w'.
Proof.
  unfold initialization. destruct (initialized m).
  - intros [= <- <-]. apply same_store_refl.
  - intros H.
    apply bind_Return in H as ([] & m1 & w1 & H1 & H).
    apply bind_Return in H as ([] & m2 & w2 & H2 & H).
    apply bind_Return in H as ([] & m3 & w3 & H3 & H).
    apply bind_Return in H as ([] & m4 & w4 & H4 & H).
    injection H as <- <-.
    apply ensure_table_same in H2 as [-> ->].
    apply wait_active_same_store in H3 as [-> H3].
    apply draw_id_same_store in H4 as [H4 _].
    assert (Hw1 : w1 = w).
    { revert H1. match goal with |- context [AWSSession ?x] => destruct (AWSSession x) end;
        [now intros [= _ <-]|].
      destruct (new_session w); [discriminate|now intros [= _ <-]]. }
    subst w1. eapply same_store_trans; [exact H3|]. eapply same_store_trans; [|exact H4].
    now repeat split.
Qed.

(** A first initialization that completes leaves the client with its
    DynamoDB handle. *)
Lemma initialization_DDBSession fuel m w m' w' :
  initialized m = false -> initialization fuel m w = Return tt m' w' ->
  DDBSession m' <> None.
Proof.
  intros Hi. unfold initialization. rewrite Hi. intros H.
  apply bind_Return in H as ([] & m1 & w1 & H1 & H).
  apply bind_Return in H as ([] & m2 & w2 & H2 & H).
  apply bind_Return in H as ([] & m3 & w3 & H3 & H).
  destruct (UnixNano w3) as [seed w4].
  apply bind_Return in H as ([] & m4 & w4' & H4 & H).
  injection H as <- <-.
  apply draw_id_same_store in H4 as [_ H4].
  apply wait_active_same_store in H3 as [-> _].
  apply ensure_table_same in H2 as [-> _].
  assert (Hs : AWSSession m1 <> None).
  { revert H1. match goal with |- context [AWSSession ?x] => destruct (AWSSession x) eqn:E end.
    - intros [= <- _]. rewrite E. discriminate.
    - destruct (new_session w); [discriminate|]. intros [= <- _]. discriminate. }
  assert (Hd : DDBSession m4 <> None).
  { rewrite H4. destruct (DDBSession m1) eqn:E; [now rewrite E|exact Hs]. }
  destruct (timeoutSet m4); exact Hd.
Qed.

(** ** Unlock *)

Lemma tryUnlock_unfold m w s :
  DDBSession m = Some s ->
  tryUnlock m w =
    match call_UpdateItem (unlock_request m (now w (clock_reads w)))
                          (set_clock_reads (S (clock_reads w)) w) with
    | (inr err, w2) => Return (Some err) m w2
    | (inl _, w2) => Return None m w2
    end.
Proof. intros Hs. unfold tryUnlock, UnixNano. now rewrite Hs. Qed.

Lemma tryUnlock_requests m w s :
  DDBSession m = Some s ->
  requests (world_after (tryUnlock m w) w) =
    requests w ++ [unlock_request m (now w (clock_reads w))].
Proof.
  intros Hs. rewrite (tryUnlock_unfold m w s Hs).
  match goal with |- context [call_UpdateItem ?i ?w1] =>
    pose proof (call_UpdateItem_requests i w1) as H;
    destruct (call_UpdateItem i w1) as [[attributes|err] w2] end; exact H.
Qed.

Lemma Unlock_requests fuel m w m1 w1 s :
  initialization fuel m w = Return tt m1 w1 -> DDBSession m1 = Some s ->
  requests (world_after (Unlock fuel m w) w) =
    requests w ++ [unlock_request m1 (now w1 (clock_reads w1))].
Proof.
  intros Hinit Hs. unfold Unlock. rewrite Hinit. simpl.
  pose proof (tryUnlock_requests m1 w1 s Hs) as H.
  destruct (initialization_same_store _ _ _ _ _ Hinit) as (_ & Hr & _).
  rewrite Hr in H.
  destruct (tryUnlock m1 w1) as [[err|] m2 w2|p m2 w2|] eqn:E; simpl in *.
  - destruct (is_ConditionalCheckFailed err); exact H.
  - exact H.
  - exact H.
  - rewrite (tryUnlock_unfold m1 w1 s Hs) in E.
    destruct (call_UpdateItem _ _) as [[a|e] w2]; discriminate.
Qed.

(** [tryUnlock], when its request reaches the table. *)
Lemma tryUnlock_reached m w s :
  DDBSession m = Some s -> fault w (length (requests w)) = None -> store_ok (db w) ->
  tryUnlock m w =
    if may_release m (record_of m (db w))
    then Return None m (released_world m w)
    else Return (Some (awserr ErrCodeConditionalCheckFailedException)) m
                (unlock_refused_world m w).
Proof.
  intros Hs Hf Hok. rewrite (tryUnlock_unfold m w s Hs).
  unfold call_UpdateItem. cbn [db requests fault set_clock_reads]. rewrite Hf.
  rewrite UpdateItem_unlock_request by assumption.
  destruct (may_release _ _); reflexivity.
Qed.

Lemma tryUnlock_fault m w s e :
  DDBSession m = Some s -> fault w (length (requests w)) = Some e ->
  tryUnlock m w = Return (Some e) m (unlock_refused_world m w).
Proof.
  intros Hs Hf. rewrite (tryUnlock_unfold m w s Hs).
  unfold call_UpdateItem. cbn [db requests fault set_clock_reads]. now rewrite Hf.
Qed.

Lemma released_record_stored m t record :
  released_record m t record !! "Value"%string = Some (AttrS (Value m)) /\
  released_record m t record !! "LockerID"%string = Some (AttrN 0) /\
  released_record m t record !! "LastWrite"%string = Some (AttrN t).
Proof.
  unfold released_record. repeat split.
  - apply lookup_insert_eq.
  - rewrite lookup_insert_ne by discriminate. apply lookup_insert_eq.
  - rewrite !lookup_insert_ne by discriminate. apply lookup_insert_eq.
Qed.

Lemma held_world_db : db held_world = <[("Locks", "Lock")%string := held_record]> ∅.
Proof. vm_compute. reflexivity. Qed.

Lemma held_world_store_ok : store_ok (db held_world).
Proof.
  rewrite held_world_db. intros k item H.
  apply lookup_insert_Some in H as [[<- <-]|[_ H]]; [reflexivity|].
  rewrite lookup_empty in H. discriminate.
Qed.

(** [tryUnlock] with a DynamoDB handle is one call of [UpdateItem]. *)
Lemma tryUnlock_call m w s :
  DDBSession m = Some s ->
  let call := call_UpdateItem (release_request m w) (set_clock_reads (S (clock_reads w)) w) in
  tryUnlock m w =
    match call.1 with
    | inr err => Return (Some err) m call.2
    | inl _ => Return None m call.2
    end.
Proof.
  intros Hs. cbv zeta. rewrite (tryUnlock_unfold m w s Hs). unfold release_request.
  destruct (call_UpdateItem _ _) as [[attributes|err] w2]; reflexivity.
Qed.

(** C5: every call of [Unlock] (whose initialization completes) is exactly
    one call of [UpdateItem]: the result of the call decides how [Unlock]
    ends, and the world the call leaves is the world [Unlock] leaves.  The
    condition of the request is [record absent OR HolderID = SessionID].  When
    the request reaches the table and the condition holds, the record of the
    lock is rewritten with [HolderID = 0], [LastWrite = now] and
    [Value = CachedValue], and [Unlock] returns; when the condition does not
    hold, the store is left as it is and [Unlock] panics. *)
Theorem Unlock_conditional_update fuel m w m1 w1 s
    (Hinit : initialization fuel m w = Return tt m1 w1)
    (Hs : DDBSession m1 = Some s) :
  let lastwrite := now w1 (clock_reads w1) in
  let request := unlock_request m1 lastwrite in
  let call := call_UpdateItem request (set_clock_reads (S (clock_reads w1)) w1) in
  Unlock fuel m w =
    match call.1 with
    | inl _ => Return tt m1 call.2
    | inr err =>
        if is_ConditionalCheckFailed err then Panics could_not_unlock m1 call.2
        else Panics (panic_error err) m1 call.2
    end /\
  requests call.2 = requests w ++ [request] /\
  ConditionExpression request = unlock_condition /\
  (forall d, store_ok d ->
     UpdateItem request d =
       if may_release m1 (record_of m1 d)
       then (inl ∅,
             <[(DDBTableName m1, Name m1) := released_record m1 lastwrite (record_of m1 d)]> d)
       else (inr (awserr ErrCodeConditionalCheckFailedException), d)) /\
  (forall record,
     released_record m1 lastwrite record !! "LockerID"%string = Some (AttrN 0) /\
     released_record m1 lastwrite record !! "LastWrite"%string = Some (AttrN lastwrite) /\
     released_record m1 lastwrite record !! "Value"%string = Some (AttrS (Value m1))) /\
  (fault w (length (requests w)) = None -> store_ok (db w) ->
     Unlock fuel m w =
       if may_release m1 (record_of m1 (db w))
       then Return tt m1 (released_world m1 w1)
       else Panics could_not_unlock m1 (unlock_refused_world m1 w1)) /\
  db (released_world m1 w1)
    = <[(DDBTableName m1, Name m1) := released_record m1 lastwrite (record_of m1 (db w))]> (db w) /\
  db (unlock_refused_world m1 w1) = db w.
Proof.
  cbv zeta.
  destruct (initialization_same_store _ _ _ _ _ Hinit) as (Hdb & Hreq & Hf).
  pose proof (tryUnlock_call m1 w1 s Hs) as Hcall. cbv zeta in Hcall.
  unfold release_request in Hcall.
  split.
  { unfold Unlock. rewrite Hinit. cbn [bind]. rewrite Hcall.
    destruct (call_UpdateItem _ _) as [[attributes|err] w2]; reflexivity. }
  split.
  { pose proof (call_UpdateItem_requests (unlock_request m1 (now w1 (clock_reads w1)))
                  (set_clock_reads (S (clock_reads w1)) w1)) as H.
    cbn [requests set_clock_reads] in H. now rewrite Hreq in H. }
  split; [reflexivity|].
  split; [intros d Hok; now apply UpdateItem_unlock_request|].
  split.
  { intros record.
    destruct (released_record_stored m1 (now w1 (clock_reads w1)) record) as (Hv & Hl & Ht).
    now repeat split. }
  split.
  { intros Hfault Hok. unfold Unlock. rewrite Hinit. cbn [bind].
    rewrite (tryUnlock_reached m1 w1 s Hs) by (rewrite ?Hf, ?Hreq, ?Hdb; assumption).
    rewrite Hdb. destruct (may_release _ _); reflexivity. }
  cbn [released_world unlock_refused_world db set_db]. rewrite Hdb. now split.
Qed.

Lemma Unlock_conditional_update_witness :
  initialization 10 holder held_world = Return tt holder held_world /\
  DDBSession holder = Some calm_session /\
  Unlock 10 holder held_world = Return tt holder (released_world holder held_world) /\
  db held_world = <[("Locks", "Lock")%string := held_record]> ∅ /\
  db (released_world holder held_world)
    = <[("Locks", "Lock")%string
        := released_record holder (now held_world (clock_reads held_world)) (Some held_record)]>
        (db held_world).
Proof.
  assert (H1 : initialization 10 holder held_world = Return tt holder held_world)
    by (vm_compute; reflexivity).
  assert (H2 : DDBSession holder = Some calm_session) by (vm_compute; reflexivity).
  split; [exact H1|]. split; [exact H2|].
  destruct (Unlock_conditional_update 10 holder held_world holder held_world calm_session H1 H2)
    as (_ & _ & _ & _ & _ & Hreached & _).
  split; [|split; [exact held_world_db|vm_compute; reflexivity]].
  rewrite Hreached; [vm_compute; reflexivity|vm_compute; reflexivity|exact held_world_store_ok].
Defined.

Lemma attr_eqb_eq a b : attr_eqb a b = true <-> a = b.
Proof.
  destruct a as [x|x], b as [y|y]; simpl; split; try discriminate.
  - intros H. apply String.eqb_eq in H. now subst.
  - intros [= ->]. apply String.eqb_refl.
  - intros H. apply Z.eqb_eq in H. now subst.
  - intros [= ->]. apply Z.eqb_refl.
Qed.

(** The release condition fails exactly on a record whose holder is not the
    client. *)
Lemma may_release_false m record :
  may_release m record = false <->
  exists item, record = Some item /\ item !! "LockerID"%string <> Some (AttrN (id m)).
Proof.
  unfold may_release. destruct record as [item|].
  - destruct (item !! "LockerID"%string) as [h|] eqn:E.
    + split.
      * intros H. exists item. split; [reflexivity|]. rewrite E. intros [= ->].
        rewrite (proj2 (attr_eqb_eq _ _) eq_refl) in H. discriminate.
      * intros (item' & [= <-] & H). rewrite E in H.
        destruct (attr_eqb h (AttrN (id m))) eqn:Eh; [|reflexivity].
        apply attr_eqb_eq in Eh. congruence.
    + split; [|reflexivity]. intros _. exists item. split; [reflexivity|]. now rewrite E.
  - split; [discriminate|]. intros (item & H & _). discriminate.
Qed.

(** C6: where the code and the claim part.  The comment of [Unlock] says "It
    is a run-time error if the Mutex is not locked on entry to Unlock", and the
    claim has [Unlock] fail with NotHolder for a session that never locked.
    The code does not when the lock has no record yet: a client that never
    called [Lock], in a world where nobody ever did (the store is empty, no
    request was ever sent), unlocks without failing, after one request, and
    leaves an unlocked record behind. *)
Theorem Unlock_without_Lock_succeeds :
  requests calm_world = [] /\ db calm_world = ∅ /\
  exists m w,
    Unlock 10 Mutex_zero calm_world = Return tt m w /\
    length (requests w) = 1%nat /\
    db w = <[("Locks", "Lock")%string := unlocked_record]> ∅.
Proof.
  split; [reflexivity|]. split; [reflexivity|].
  eexists _, _. split; [vm_compute; reflexivity|].
  split; vm_compute; reflexivity.
Qed.

(** X10: when the record of the lock exists and its HolderID is not the
    SessionID of the client (the record is unlocked, held by another session,
    or without a HolderID) and the request reaches the table, [Unlock] fails
    with NotHolder; the failure is terminal: the conditional update was
    attempted exactly once, and the store is as it was. *)
Theorem Unlock_not_holder fuel m w m1 w1 s item
    (Hinit : initialization fuel m w = Return tt m1 w1)
    (Hs : DDBSession m1 = Some s)
    (Hok : store_ok (db w))
    (Hfault : fault w (length (requests w)) = None)
    (Hrecord : record_of m1 (db w) = Some item)
    (Hholder : item !! "LockerID"%string <> Some (AttrN (id m1))) :
  exists w',
    Unlock fuel m w = Panics could_not_unlock m1 w' /\
    failure_of could_not_unlock = NotHolder /\
    requests w' = requests w ++ [unlock_request m1 (now w1 (clock_reads w1))] /\
    db w' = db w.
Proof.
  destruct (initialization_same_store _ _ _ _ _ Hinit) as (Hdb & Hreq & Hf).
  assert (Hrel : may_release m1 (record_of m1 (db w)) = false)
    by (apply may_release_false; eauto).
  unfold Unlock. rewrite Hinit. cbn [bind].
  rewrite (tryUnlock_unfold m1 w1 s Hs). unfold call_UpdateItem.
  cbn [requests fault db set_clock_reads]. rewrite Hf, Hreq, Hfault, Hdb.
  rewrite UpdateItem_unlock_request by assumption. rewrite Hrel. cbn [bind].
  cbn [is_ConditionalCheckFailed]. change (String.eqb _ _) with true. cbv iota.
  eexists. split; [reflexivity|]. repeat split.
Qed.

Lemma Unlock_not_holder_witness :
  initialization 10 Mutex_zero held_world = Return tt contender contender_world /\
  DDBSession contender = Some calm_session /\
  store_ok (db held_world) /\
  fault held_world (length (requests held_world)) = None /\
  record_of contender (db held_world) = Some held_record /\
  held_record !! "LockerID"%string <> Some (AttrN (id contender)) /\
  exists w',
    Unlock 10 Mutex_zero held_world = Panics could_not_unlock contender w' /\
    failure_of could_not_unlock = NotHolder /\
    requests w' = requests held_world
                  ++ [unlock_request contender (now contender_world (clock_reads contender_world))] /\
    db w' = db held_world.
Proof.
  assert (H1 : initialization 10 Mutex_zero held_world = Return tt contender contender_world)
    by (vm_compute; reflexivity).
  assert (H2 : DDBSession contender = Some calm_session) by reflexivity.
  pose proof held_world_store_ok as H3.
  assert (H4 : fault held_world (length (requests held_world)) = None) by reflexivity.
  assert (H5 : record_of contender (db held_world) = Some held_record)
    by (vm_compute; reflexivity).
  assert (H6 : held_record !! "LockerID"%string <> Some (AttrN (id contender)))
    by (vm_compute; discriminate).
  repeat (split; [assumption|]).
  exact (Unlock_not_holder 10 Mutex_zero held_world contender contender_world calm_session
           held_record H1 H2 H3 H4 H5 H6).
Defined.

(** ** The loop of Lock *)

Lemma tryLock_panic m w p m' w' :
  tryLock m w = Panics p m' w' -> p = panic_nil_dereference.
Proof.
  unfold tryLock.
  destruct (UnixNano w) as [lastwrite w1].
  destruct (if 0 <? Expiry m then UnixNano w1 else (0, w1)) as [expired w2].
  destruct (DDBSession m); [|now intros [= <- _ _]].
  destruct (call_UpdateItem _ w2) as [[attributes|err] w3]; [|discriminate].
  destruct (attributes !! "Value"%string) as [[v|n]|]; try discriminate.
  now intros [= <- _ _].
Qed.

(** A turn of the loop whose attempt met a failed condition: [Lock] gives up
    when the start is earlier than the clock minus the timeout, and otherwise
    sleeps and goes on. *)
Lemma Lock_turn_refused started m w err m1 w1 :
  tryLock m w = Return (Some err) m1 w1 ->
  is_ConditionalCheckFailed err = true ->
  Lock_turn started m w =
    if started <? wrap64 (now w1 (clock_reads w1) - timeout m1)
    then Failed could_not_lock m1 (tested_world w1)
    else Retry m1 (retry_world w1).
Proof.
  intros Htry Hcf. unfold Lock_turn. rewrite Htry, Hcf. reflexivity.
Qed.

(** The condition failure of an attempt is never what [Lock] panics with. *)
Lemma Lock_turn_absorbs started m w p m' w' :
  Lock_turn started m w = Failed p m' w' -> failure_of p <> ConditionFailed.
Proof.
  unfold Lock_turn.
  destruct (tryLock m w) as [[err|] m1 w1|p1 m1 w1|] eqn:E; try discriminate.
  - destruct (is_ConditionalCheckFailed err) eqn:Hcf.
    + destruct (UnixNano w1) as [t w2].
      destruct (started <? wrap64 (t - timeout m1)).
      * now intros [= <- _ _].
      * destruct (Intn 10 w2). discriminate.
    + intros [= <- _ _]. destruct err as [code|msg]; simpl in *.
      * rewrite Hcf. discriminate.
      * destruct (String.eqb msg _); [discriminate|].
        destruct (String.eqb msg _); discriminate.
  - intros [= <- _ _]. apply tryLock_panic in E as ->. discriminate.
Qed.

Lemma backoff_range w : 0 <= backoff w < 10.
Proof. unfold backoff, Intn, draw. simpl. apply Z.mod_pos_bound. lia. Qed.

Lemma retry_world_sleeps w :
  sleeps (retry_world w) = sleeps w ++ [backoff w * Millisecond] /\
  requests (retry_world w) = requests w /\ db (retry_world w) = db w.
Proof.
  pose proof (backoff_range w) as H.
  unfold retry_world. rewrite wrap64_in_range.
  - now repeat split.
  - unfold in_int64, min_int64, max_int64, Millisecond. lia.
Qed.

(** C3, as the specification has it, does not hold: the second client, with
    a timeout of 20ns, starts its [Lock] at 1040; its first attempt is refused,
    and the clock then reads 1060, so that [now - startTime >= Timeout]; yet
    [Lock] does not fail at that attempt: it sleeps and retries. *)
Lemma Lock_retries_at_the_timeout :
  0 < timeout patient /\
  exists w1,
    tryLock patient patient_world
      = Return (Some (awserr ErrCodeConditionalCheckFailedException)) patient w1 /\
    now w1 (clock_reads w1) - patient_started >= timeout patient /\
    Lock_turn patient_started patient patient_world = Retry patient (retry_world w1).
Proof.
  split; [reflexivity|]. eexists. split; [vm_compute; reflexivity|].
  split; [vm_compute; discriminate|]. vm_compute. reflexivity.
Qed.

(** C3, amended: for a [Lock] with [Timeout > 0], an attempt that returns
    ConditionFailed makes [Lock] fail with FailedToAcquire if and only if
    [now - startTime > Timeout] at that attempt (a strict comparison);
    otherwise the failure is absorbed: the client sleeps one backoff interval,
    of less than ten milliseconds, without another request, and goes on with
    the loop.  Whatever a turn of the loop fails with, it is not
    ConditionFailed. *)
Theorem Lock_turn_timeout started m w err m1 w1
    (Htimeout : 0 < timeout m1)
    (Htry : tryLock m w = Return (Some err) m1 w1)
    (Hcf : is_ConditionalCheckFailed err = true)
    (Hrange : in_int64 (now w1 (clock_reads w1) - timeout m1)) :
  let now_ := now w1 (clock_reads w1) in
  Lock_turn started m w =
    (if timeout m1 <? now_ - started
     then Failed could_not_lock m1 (tested_world w1)
     else Retry m1 (retry_world w1)) /\
  failure_of could_not_lock = FailedToAcquire /\
  (forall fuel, Lock_loop (S fuel) started m w =
     if timeout m1 <? now_ - started
     then Panics could_not_lock m1 (tested_world w1)
     else Lock_loop fuel started m1 (retry_world w1)) /\
  (sleeps (retry_world w1) = sleeps w1 ++ [backoff w1 * Millisecond] /\
   0 <= backoff w1 < 10 /\ requests (retry_world w1) = requests w1) /\
  forall p m' w', Lock_turn started m w = Failed p m' w' -> failure_of p <> ConditionFailed.
Proof.
  cbv zeta.
  assert (Hturn : Lock_turn started m w =
    (if timeout m1 <? now w1 (clock_reads w1) - started
     then Failed could_not_lock m1 (tested_world w1)
     else Retry m1 (retry_world w1))).
  { rewrite (Lock_turn_refused started m w err m1 w1 Htry Hcf).
    rewrite wrap64_in_range by assumption.
    cases_on_comparisons; reflexivity. }
  split; [exact Hturn|]. split; [reflexivity|]. split; [|split].
  - intros fuel. cbn [Lock_loop]. rewrite Hturn.
    destruct (timeout m1 <? now w1 (clock_reads w1) - started); reflexivity.
  - pose proof (retry_world_sleeps w1) as (Hs & Hr & _).
    pose proof (backoff_range w1). auto.
  - intros p m' w'. apply Lock_turn_absorbs.
Qed.

Lemma Lock_turn_timeout_witness :
  0 < timeout patient /\
  tryLock patient patient_world
    = Return (Some (awserr ErrCodeConditionalCheckFailedException)) patient refused_world /\
  is_ConditionalCheckFailed (awserr ErrCodeConditionalCheckFailedException) = true /\
  in_int64 (now refused_world (clock_reads refused_world) - timeout patient) /\
  Lock_turn patient_started patient patient_world =
    (if timeout patient <? now refused_world (clock_reads refused_world) - patient_started
     then Failed could_not_lock patient (tested_world refused_world)
     else Retry patient (retry_world refused_world)) /\
  failure_of could_not_lock = FailedToAcquire.
Proof.
  assert (H1 : 0 < timeout patient) by reflexivity.
  assert (H2 : tryLock patient patient_world
    = Return (Some (awserr ErrCodeConditionalCheckFailedException)) patient refused_world)
    by (vm_compute; reflexivity).
  assert (H3 : is_ConditionalCheckFailed (awserr ErrCodeConditionalCheckFailedException) = true)
    by reflexivity.
  assert (H4 : in_int64 (now refused_world (clock_reads refused_world) - timeout patient))
    by (vm_compute; split; discriminate).
  repeat (split; [assumption|]).
  pose proof (Lock_turn_timeout patient_started patient patient_world _ patient refused_world
                H1 H2 H3 H4) as (Hturn & Hfail & _).
  split; [exact Hturn|exact Hfail].
Defined.

(** With a timeout of zero, [Lock] gives up at the first refused attempt after
    which the clock has moved on from the start. *)
Lemma Lock_turn_zero_timeout started m w err m1 w1 :
  tryLock m w = Return (Some err) m1 w1 ->
  is_ConditionalCheckFailed err = true ->
  timeout m1 = 0 ->
  in_int64 (now w1 (clock_reads w1)) ->
  started < now w1 (clock_reads w1) ->
  Lock_turn started m w = Failed could_not_lock m1 (tested_world w1).
Proof.
  intros Htry Hcf Ht Hr Hlt.
  rewrite (Lock_turn_refused started m w err m1 w1 Htry Hcf).
  rewrite Ht, Z.sub_0_r, wrap64_in_range by assumption.
  now cases_on_comparisons.
Qed.

(** C4, on the code: a client built with [WithTimeout(0)], which the
    documentation of [WithTimeout] calls "no timeout", tries to lock while
    another client holds the lock; its [Lock] fails with FailedToAcquire at the
    first refused attempt, after one request and without any sleep, instead of
    retrying. *)
Lemma Lock_WithTimeout_zero_gives_up :
  exists m w,
    Lock 10 (WithTimeout Mutex_zero 0) held_world = Panics could_not_lock m w /\
    timeout m = 0 /\
    failure_of could_not_lock = FailedToAcquire /\
    length (requests w) = S (length (requests held_world)) /\
    sleeps w = sleeps held_world /\
    db w = db held_world.
Proof.
  eexists _, _. split; [vm_compute; reflexivity|].
  repeat split.
Qed.

(** ** Mutual exclusion *)

Lemma same_lock_refl m : same_lock m m.
Proof. now repeat split. Qed.

Lemma same_lock_set_Value v m : same_lock m (set_Value v m).
Proof. now repeat split. Qed.

Lemma tryLock_same_lock m w m' :
  after (tryLock m w) = Some m' -> same_lock m m'.
Proof.
  unfold tryLock.
  destruct (UnixNano w) as [lastwrite w1].
  destruct (if 0 <? Expiry m then UnixNano w1 else (0, w1)) as [expired w2].
  destruct (DDBSession m); [|simpl; intros [= <-]; apply same_lock_refl].
  destruct (call_UpdateItem _ w2) as [[attributes|err] w3];
    [|simpl; intros [= <-]; apply same_lock_refl].
  destruct (attributes !! "Value"%string) as [[v|n]|]; simpl; intros [= <-];
    auto using same_lock_refl, same_lock_set_Value.
Qed.

(** What an attempt does to the store: when it returns without an error,
    DynamoDB has applied its request; when it returns an error, the store is as
    it was. *)
Lemma tryLock_effect m w :
  match tryLock m w with
  | Return None _ w' =>
      exists t e attrs, UpdateItem (lock_request m t e) (db w) = (inl attrs, db w')
  | Return (Some _) _ w' => db w' = db w
  | Panics _ _ w' =>
      db w' = db w \/
      exists t e attrs, UpdateItem (lock_request m t e) (db w) = (inl attrs, db w')
  | OutOfFuel => True
  end.
Proof.
  destruct (DDBSession m) as [s|] eqn:Hs.
  - rewrite (tryLock_unfold m w s Hs). cbv zeta. unfold call_UpdateItem.
    cbn [db requests fault set_clock_reads].
    destruct (fault w (length (requests w))) as [e|]; [reflexivity|].
    destruct (UpdateItem _ (db w)) as [[attrs|err] d'] eqn:E.
    + destruct (attrs !! "Value"%string) as [[v|n]|]; cbn [db set_db]; eauto 6.
    + apply UpdateItem_failed in E. exact E.
  - unfold tryLock, UnixNano. rewrite Hs.
    destruct (0 <? Expiry m); left; reflexivity.
Qed.

Lemma tryUnlock_effect m w :
  match tryUnlock m w with
  | Return None m' w' =>
      m' = m /\ exists t attrs, UpdateItem (unlock_request m t) (db w) = (inl attrs, db w')
  | Return (Some _) m' w' => m' = m /\ db w' = db w
  | Panics _ m' w' => m' = m /\ db w' = db w
  | OutOfFuel => True
  end.
Proof.
  destruct (DDBSession m) as [s|] eqn:Hs.
  - rewrite (tryUnlock_unfold m w s Hs). unfold call_UpdateItem.
    cbn [db requests fault set_clock_reads].
    destruct (fault w (length (requests w))) as [e|]; [now split|].
    destruct (UpdateItem _ (db w)) as [[attrs|err] d'] eqn:E.
    + cbn [db set_db]. eauto.
    + apply UpdateItem_failed in E. now split.
  - unfold tryUnlock, UnixNano. rewrite Hs. now split.
Qed.

Lemma acquired_record_lookup m t record :
  acquired_record m t record !! "LockerID"%string = Some (AttrN (id m)) /\
  acquired_record m t record !! "Name"%string = Some (AttrS (Name m)).
Proof.
  unfold acquired_record. split.
  - apply lookup_insert_eq.
  - rewrite !lookup_insert_ne by discriminate. apply lookup_insert_eq.
Qed.

Lemma released_record_lookup m t record :
  released_record m t record !! "Name"%string = Some (AttrS (Name m)).
Proof.
  unfold released_record.
  rewrite !lookup_insert_ne by discriminate. apply lookup_insert_eq.
Qed.

Lemma store_ok_insert d (k : string * string) (item : Item) :
  store_ok d -> item !! "Name"%string = Some (AttrS k.2) -> store_ok (<[k := item]> d).
Proof.
  intros Hok Hitem k' item' H.
  apply lookup_insert_Some in H as [[<- <-]|[_ H]]; [assumption|].
  now apply Hok.
Qed.

(** Without expiry, the acquire condition holds on a record with a holder
    only if that holder is 0 or the client itself. *)
Lemma may_acquire_holder m now_ (item : Item) h :
  Expiry m = 0 ->
  item !! "LockerID"%string = Some h ->
  may_acquire m now_ (Some item) = true ->
  h = AttrN 0 \/ h = AttrN (id m).
Proof.
  intros HE Hh. unfold may_acquire. rewrite Hh, HE. simpl.
  rewrite orb_false_r. intros H. apply orb_true_iff in H as [H|H];
    apply attr_eqb_eq in H; auto.
Qed.

(** While the record names another nonzero holder, the acquire condition of a
    client without expiry is false. *)
Lemma may_acquire_other_holder m now_ (item : Item) other :
  Expiry m = 0 -> other <> 0 -> other <> id m ->
  item !! "LockerID"%string = Some (AttrN other) ->
  may_acquire m now_ (Some item) = false.
Proof.
  intros HE H0 Hne Hh.
  destruct (may_acquire m now_ (Some item)) eqn:E; [|reflexivity].
  destruct (may_acquire_holder m now_ item _ HE Hh E) as [[= ?]|[= ?]]; contradiction.
Qed.

(** An applied acquisition: the condition held, and the record names the
    client. *)
Lemma lock_request_applied m t e d attrs d' :
  store_ok d ->
  UpdateItem (lock_request m t e) d = (inl attrs, d') ->
  may_acquire m e (record_of m d) = true /\
  d' = <[(DDBTableName m, Name m) := acquired_record m t (record_of m d)]> d.
Proof.
  intros Hok. rewrite UpdateItem_lock_request by assumption.
  destruct (may_acquire m e (record_of m d)); [|discriminate].
  now intros [= _ <-].
Qed.

Lemma unlock_request_applied m t d attrs d' :
  store_ok d ->
  UpdateItem (unlock_request m t) d = (inl attrs, d') ->
  may_release m (record_of m d) = true /\
  d' = <[(DDBTableName m, Name m) := released_record m t (record_of m d)]> d.
Proof.
  intros Hok. rewrite UpdateItem_unlock_request by assumption.
  destruct (may_release m (record_of m d)); [|discriminate].
  now intros [= _ <-].
Qed.

(** Replacing a client by a later state of itself, in a store where the
    holders are recorded, keeps the invariant. *)
Lemma invariant_update table name s i c m' h d' :
  invariant table name s ->
  clients s !! i = Some c ->
  same_lock (mutex c) m' ->
  store_ok d' ->
  (forall j cj, j <> i -> clients s !! j = Some cj -> holding cj = true ->
     exists item, d' !! (table, name) = Some item /\
                  item !! "LockerID"%string = Some (AttrN (id (mutex cj)))) ->
  (h = true ->
     exists item, d' !! (table, name) = Some item /\
                  item !! "LockerID"%string = Some (AttrN (id m'))) ->
  invariant table name
    {| clients := <[i := {| mutex := m'; holding := h |}]> (clients s); store := d' |}.
Proof.
  intros ((Hc & Hdistinct) & Hok & Hrec) Hi (Hid & Hname & Htable & Hexp) Hok' Hothers Hself.
  destruct (Hc i c Hi) as (Ht & Hn & He & Hz).
  repeat split; cbn [clients store].
  - apply list_lookup_insert_Some in H as [(<- & <- & _)|(_ & H)]; simpl.
    + congruence.
    + now destruct (Hc _ _ H).
  - apply list_lookup_insert_Some in H as [(<- & <- & _)|(_ & H)]; simpl.
    + congruence.
    + now destruct (Hc _ _ H) as (_ & ? & _).
  - apply list_lookup_insert_Some in H as [(<- & <- & _)|(_ & H)]; simpl.
    + congruence.
    + now destruct (Hc _ _ H) as (_ & _ & ? & _).
  - apply list_lookup_insert_Some in H as [(<- & <- & _)|(_ & H)]; simpl.
    + congruence.
    + now destruct (Hc _ _ H) as (_ & _ & _ & ?).
  - intros j1 j2 c1 c2 H1 H2 Heq.
    apply list_lookup_insert_Some in H1 as [(<- & <- & _)|(Hne1 & H1)];
      apply list_lookup_insert_Some in H2 as [(<- & <- & _)|(Hne2 & H2)]; simpl in Heq.
    + reflexivity.
    + exfalso. apply Hne2. apply (Hdistinct _ _ _ _ Hi H2). congruence.
    + exfalso. apply Hne1. apply (Hdistinct _ _ _ _ Hi H1). congruence.
    + exact (Hdistinct _ _ _ _ H1 H2 Heq).
  - exact Hok'.
  - intros j cj H Hh.
    apply list_lookup_insert_Some in H as [(<- & <- & _)|(Hne & H)]; simpl in *.
    + now apply Hself.
    + apply (Hothers j cj); auto.
Qed.

(** With the same store, the invariant only needs the client to keep whether
    it holds the lock. *)
Lemma invariant_same_store table name s i c m' :
  invariant table name s ->
  clients s !! i = Some c ->
  same_lock (mutex c) m' ->
  invariant table name
    {| clients := <[i := {| mutex := m'; holding := holding c |}]> (clients s);
       store := store s |}.
Proof.
  intros Hinv Hi Hsame. pose proof Hinv as (_ & Hok & Hrec).
  apply (invariant_update table name s i c); auto.
  - intros j cj _ Hj Hh. exact (Hrec j cj Hj Hh).
  - intros Hh. destruct Hsame as (-> & _). exact (Hrec i c Hi Hh).
Qed.

(** When the acquire condition of a client holds, no other client holds the
    lock. *)
Lemma acquire_excludes table name s i c now_ j cj :
  invariant table name s ->
  clients s !! i = Some c ->
  may_acquire (mutex c) now_ (record_of (mutex c) (store s)) = true ->
  clients s !! j = Some cj -> holding cj = true -> j = i.
Proof.
  intros ((Hc & Hdistinct) & Hok & Hrec) Hi Hacq Hj Hh.
  destruct (Hc i c Hi) as (Ht & Hn & He & Hz).
  destruct (Hc j cj Hj) as (_ & _ & _ & Hzj).
  destruct (Hrec j cj Hj Hh) as (item & Hitem & Hholder).
  unfold record_of in Hacq. rewrite Ht, Hn, Hitem in Hacq.
  destruct (may_acquire_holder _ _ _ _ He Hholder Hacq) as [[= ?]|[= Heq]];
    [contradiction|].
  exact (Hdistinct _ _ _ _ Hj Hi Heq).
Qed.

(** When the release condition of a client holds, no other client holds the
    lock. *)
Lemma release_excludes table name s i c j cj :
  invariant table name s ->
  clients s !! i = Some c ->
  may_release (mutex c) (record_of (mutex c) (store s)) = true ->
  clients s !! j = Some cj -> holding cj = true -> j = i.
Proof.
  intros ((Hc & Hdistinct) & Hok & Hrec) Hi Hrel Hj Hh.
  destruct (Hc i c Hi) as (Ht & Hn & He & Hz).
  destruct (Hrec j cj Hj Hh) as (item & Hitem & Hholder).
  unfold record_of, may_release in Hrel. rewrite Ht, Hn, Hitem, Hholder in Hrel.
  apply attr_eqb_eq in Hrel. injection Hrel as Heq.
  exact (Hdistinct _ _ _ _ Hj Hi Heq).
Qed.

(** The invariant after an acquisition that DynamoDB applied. *)
Lemma invariant_acquired table name s i c m' h t e attrs d' :
  invariant table name s ->
  clients s !! i = Some c ->
  same_lock (mutex c) m' ->
  UpdateItem (lock_request (mutex c) t e) (store s) = (inl attrs, d') ->
  invariant table name
    {| clients := <[i := {| mutex := m'; holding := h |}]> (clients s); store := d' |}.
Proof.
  intros Hinv Hi Hsame Hupd. pose proof Hinv as ((Hc & _) & Hok & _).
  destruct (Hc i c Hi) as (Ht & Hn & _).
  destruct (lock_request_applied _ _ _ _ _ _ Hok Hupd) as [Hacq ->].
  destruct (acquired_record_lookup (mutex c) t (record_of (mutex c) (store s)))
    as [Hlocker HName].
  apply (invariant_update table name s i c); auto.
  - now apply store_ok_insert.
  - intros j cj Hne Hj Hh. exfalso. apply Hne.
    exact (acquire_excludes table name s i c e j cj Hinv Hi Hacq Hj Hh).
  - intros _. rewrite Ht, Hn, lookup_insert_eq. eexists. split; [reflexivity|].
    destruct Hsame as (-> & _). exact Hlocker.
Qed.

(** Every step of the system keeps the invariant. *)
Lemma step_invariant table name s s' :
  invariant table name s -> step s s' -> invariant table name s'.
Proof.
  intros Hinv Hstep. pose proof Hinv as ((Hc & _) & Hok & _).
  destruct Hstep as [i c w m' w' Hi Hdb H|i c w err m' w' Hi Hdb H|i c w p m' w' Hi Hdb H
                    |i c w m' w' Hi Hdb H|i c w err m' w' Hi Hdb H|i c v Hi].
  - pose proof (tryLock_effect (mutex c) w) as He.
    pose proof (tryLock_same_lock (mutex c) w m') as Hsame.
    rewrite H in He, Hsame. destruct He as (t & e & attrs & He). rewrite Hdb in He.
    eapply invariant_acquired; eauto.
  - pose proof (tryLock_effect (mutex c) w) as He.
    pose proof (tryLock_same_lock (mutex c) w m') as Hsame.
    rewrite H in He, Hsame. rewrite He, Hdb.
    apply invariant_same_store; auto.
  - pose proof (tryLock_effect (mutex c) w) as He.
    pose proof (tryLock_same_lock (mutex c) w m') as Hsame.
    rewrite H in He, Hsame. destruct He as [He|(t & e & attrs & He)].
    + rewrite He, Hdb. apply invariant_same_store; auto.
    + rewrite Hdb in He. eapply invariant_acquired; eauto.
  - pose proof (tryUnlock_effect (mutex c) w) as He. rewrite H in He.
    destruct He as (-> & t & attrs & He). rewrite Hdb in He.
    destruct (Hc i c Hi) as (Ht & Hn & _).
    destruct (unlock_request_applied _ _ _ _ _ Hok He) as [Hrel ->].
    apply (invariant_update table name s i c); auto using same_lock_refl.
    + apply store_ok_insert; [assumption|]. apply released_record_lookup.
    + intros j cj Hne Hj Hh. exfalso. apply Hne.
      exact (release_excludes table name s i c j cj Hinv Hi Hrel Hj Hh).
    + discriminate.
  - pose proof (tryUnlock_effect (mutex c) w) as He. rewrite H in He.
    destruct He as (-> & He). rewrite He, Hdb.
    apply invariant_same_store; auto using same_lock_refl.
  - apply invariant_same_store; auto using same_lock_set_Value.
Qed.

Lemma reachable_invariant table name s0 s :
  invariant table name s0 -> reachable s0 s -> invariant table name s.
Proof.
  intros H0 Hreach. induction Hreach as [|s1 s2 _ IH Hstep]; [assumption|].
  eapply step_invariant; eauto.
Qed.

(** C1: clients with distinct nonzero session identifiers contend on the same
    lock name without expiry, each attempt and each release being one atomic
    conditional write on the shared store, interleaved in any order.  In every
    state the system reaches, at most one client holds the lock; and while one
    holds it, the acquire condition of any other client is false on the record
    and no attempt of another client succeeds: a second [Lock] can succeed only
    after the holder's [Unlock] has completed. *)
Theorem mutual_exclusion table name s0 s
    (Hclients : contenders table name (clients s0))
    (Hstore : store_ok (store s0))
    (Hnone : nobody_holds (clients s0))
    (Hreach : reachable s0 s) :
  (forall i j ci cj,
     clients s !! i = Some ci -> clients s !! j = Some cj ->
     holding ci = true -> holding cj = true -> i = j) /\
  (forall i j ci cj,
     clients s !! i = Some ci -> holding ci = true ->
     clients s !! j = Some cj -> j <> i ->
     (forall now_, may_acquire (mutex cj) now_ (record_of (mutex cj) (store s)) = false) /\
     (forall w m' w', db w = store s -> tryLock (mutex cj) w <> Return None m' w')).
Proof.
  assert (H0 : invariant table name s0).
  { split; [exact Hclients|]. split; [exact Hstore|].
    intros i c Hi Hh. rewrite (Hnone i c Hi) in Hh. discriminate. }
  pose proof (reachable_invariant table name s0 s H0 Hreach) as Hinv.
  pose proof Hinv as ((Hc & Hdistinct) & Hok & Hrec).
  assert (Hfalse : forall i j ci cj,
     clients s !! i = Some ci -> holding ci = true ->
     clients s !! j = Some cj -> j <> i ->
     forall now_, may_acquire (mutex cj) now_ (record_of (mutex cj) (store s)) = false).
  { intros i j ci cj Hi Hh Hj Hne now_.
    destruct (may_acquire _ _ _) eqn:E; [|reflexivity].
    exfalso. apply Hne. symmetry.
    exact (acquire_excludes table name s j cj now_ i ci Hinv Hj E Hi Hh). }
  split.
  - intros i j ci cj Hi Hj Hhi Hhj.
    destruct (Hrec i ci Hi Hhi) as (item & Hitem & Hl).
    destruct (Hrec j cj Hj Hhj) as (item' & Hitem' & Hl').
    rewrite Hitem in Hitem'. injection Hitem' as <-.
    rewrite Hl in Hl'. injection Hl' as Heq.
    exact (Hdistinct _ _ _ _ Hi Hj Heq).
  - intros i j ci cj Hi Hh Hj Hne. split; [now apply (Hfalse i j ci cj)|].
    intros w m' w' Hdb Htry.
    pose proof (tryLock_effect (mutex cj) w) as He. rewrite Htry in He.
    destruct He as (t & e & attrs & He). rewrite Hdb in He.
    destruct (lock_request_applied _ _ _ _ _ _ Hok He) as [Hacq _].
    rewrite (Hfalse i j ci cj Hi Hh Hj Hne e) in Hacq. discriminate.
Qed.

Lemma two_clients_contenders : contenders "Locks" "Lock" (clients two_clients).
Proof.
  split.
  - intros i c H. destruct i as [|[|i]]; simpl in H; try discriminate;
      injection H as <-; repeat split; try reflexivity; vm_compute; discriminate.
  - intros i j ci cj Hi Hj Heq.
    destruct i as [|[|i]], j as [|[|j]]; simpl in Hi, Hj; try discriminate;
      try reflexivity; injection Hi as <-; injection Hj as <-;
      vm_compute in Heq; discriminate.
Qed.

Lemma two_clients_first_holds : reachable two_clients first_holds.
Proof.
  apply (reachable_step _ two_clients); [apply reachable_start|].
  apply (step_acquired two_clients 0 {| mutex := first_client; holding := false |} first_world).
  - reflexivity.
  - reflexivity.
  - vm_compute. reflexivity.
Qed.

Lemma mutual_exclusion_witness :
  contenders "Locks" "Lock" (clients two_clients) /\
  store_ok (store two_clients) /\
  nobody_holds (clients two_clients) /\
  reachable two_clients first_holds /\
  (forall i j ci cj,
     clients first_holds !! i = Some ci -> clients first_holds !! j = Some cj ->
     holding ci = true -> holding cj = true -> i = j) /\
  (forall i j ci cj,
     clients first_holds !! i = Some ci -> holding ci = true ->
     clients first_holds !! j = Some cj -> j <> i ->
     (forall now_,
        may_acquire (mutex cj) now_ (record_of (mutex cj) (store first_holds)) = false) /\
     (forall w m' w', db w = store first_holds -> tryLock (mutex cj) w <> Return None m' w')).
Proof.
  pose proof two_clients_contenders as H1.
  assert (H2 : store_ok (store two_clients)).
  { intros k item H. simpl in H. rewrite lookup_empty in H. discriminate. }
  assert (H3 : nobody_holds (clients two_clients)).
  { intros i c H. destruct i as [|[|i]]; simpl in H; try discriminate;
      injection H as <-; reflexivity. }
  pose proof two_clients_first_holds as H4.
  repeat (split; [assumption|]).
  exact (mutual_exclusion "Locks" "Lock" two_clients first_holds H1 H2 H3 H4).
Defined.

(** In that state the first client does hold the lock, and an attempt of the
    second one is refused with a failed condition. *)
Example first_holds_second_refused :
  (holding <$> clients first_holds) = [true; false] /\
  exists w',
    tryLock contender
      (set_db (store first_holds) (requests contender_world) contender_world)
    = Return (Some (awserr ErrCodeConditionalCheckFailedException)) contender w'.
Proof.
  split; [reflexivity|]. eexists. vm_compute. reflexivity.
Qed.

(** * Further properties of the code *)

(** ** Records and worlds after an attempt *)

Lemma free_for_may_acquire m d now_ : free_for m d -> may_acquire m now_ (record_of m d) = true.
Proof.
  unfold free_for, stored, may_acquire.
  destruct (record_of m d) as [item|]; [|reflexivity].
  intros [->|[->| ->]]; [reflexivity|reflexivity|].
  simpl. now rewrite Z.eqb_refl, orb_true_r.
Qed.

Lemma stored_acquired a m t d :
  stored a m (<[(DDBTableName m, Name m) := acquired_record m t (record_of m d)]> d)
  = acquired_record m t (record_of m d) !! a.
Proof. unfold stored, record_of at 1. now rewrite lookup_insert_eq. Qed.

Lemma stored_released a m t d :
  stored a m (<[(DDBTableName m, Name m) := released_record m t (record_of m d)]> d)
  = released_record m t (record_of m d) !! a.
Proof. unfold stored, record_of at 1. now rewrite lookup_insert_eq. Qed.

Lemma Lock_initialized fuel m w :
  initialized m = true ->
  Lock fuel m w = Lock_loop fuel (now w (clock_reads w)) m (tested_world w).
Proof.
  intros Hi. unfold Lock. now rewrite initialization_initialized.
Qed.

Lemma store_ok_empty : store_ok ∅.
Proof. intros k item H. rewrite lookup_empty in H. discriminate. Qed.

Lemma first_world_db : db first_world = ∅.
Proof. vm_compute. reflexivity. Qed.

(** ** The value a successful attempt reads *)

(** X1: an attempt of [tryLock] that succeeds caches the string the record
    holds under [Value] (and keeps the cached value when the record has none),
    leaves that stored value as it is, and makes the client the holder the
    record names. *)
Theorem tryLock_adopts_value m w m' w'
    (Hok : store_ok (db w))
    (Htry : tryLock m w = Return None m' w') :
  m' = adopt m (stored "Value" m (db w)) /\
  Value m' = adopted_value m (stored "Value" m (db w)) /\
  stored "Value" m (db w') = stored "Value" m (db w) /\
  stored "LockerID" m (db w') = Some (AttrN (id m)).
Proof.
  destruct (DDBSession m) as [s|] eqn:Hs.
  - destruct (fault w (length (requests w))) as [e|] eqn:Hf.
    + rewrite (tryLock_fault m w s e Hs Hf) in Htry. discriminate.
    + rewrite (tryLock_reached m w s Hs Hf Hok) in Htry.
      destruct (may_acquire _ _ _); [|discriminate].
      assert (Hv : stored "Value" m (db (acquired_world m w)) = stored "Value" m (db w)).
      { cbn [acquired_world db set_db]. rewrite stored_acquired.
        rewrite acquired_record_other by discriminate. apply stored_default. }
      assert (Hl : stored "LockerID" m (db (acquired_world m w)) = Some (AttrN (id m))).
      { cbn [acquired_world db set_db]. rewrite stored_acquired.
        apply acquired_record_lookup. }
      destruct (stored "Value" m (db w)) as [[v|n]|] eqn:E; try discriminate;
        injection Htry as <- <-; repeat split; assumption.
  - revert Htry. unfold tryLock, UnixNano. rewrite Hs.
    destruct (0 <? Expiry m); discriminate.
Qed.

Lemma tryLock_adopts_value_witness :
  store_ok (db first_world) /\
  tryLock first_client first_world
    = Return None first_client (acquired_world first_client first_world) /\
  Value first_client = adopted_value first_client (stored "Value" first_client (db first_world)) /\
  stored "LockerID" first_client (db (acquired_world first_client first_world))
    = Some (AttrN (id first_client)).
Proof.
  assert (H1 : store_ok (db first_world)) by (rewrite first_world_db; apply store_ok_empty).
  assert (H2 : tryLock first_client first_world
               = Return None first_client (acquired_world first_client first_world))
    by (vm_compute; reflexivity).
  split; [exact H1|]. split; [exact H2|].
  destruct (tryLock_adopts_value first_client first_world first_client _ H1 H2)
    as (_ & Hv & _ & Hl).
  split; [exact Hv|exact Hl].
Defined.

(** ** Locking a free lock *)

(** X2: when the record is free for an initialized client (absent, without
    holder, released, or already held by the client itself: [Lock] is
    reentrant) and the request reaches the table, [Lock] sends exactly one
    request and does not sleep; the record then names the client as the
    holder, with the value it had.  [Lock] returns with the stored string
    cached (the cached value is kept when the record has none); when the
    stored value is a number, which [tryLock] cannot read, [Lock] panics
    instead, the client already being the holder the record names. *)
Theorem Lock_acquires_at_once fuel m w s
    (Hinit : initialized m = true)
    (Hs : DDBSession m = Some s)
    (Hok : store_ok (db w))
    (Hfault : fault w (length (requests w)) = None)
    (Hfree : free_for m (db w)) :
  let w' := acquired_world m (tested_world w) in
  Lock (S fuel) m w =
    match stored "Value" m (db w) with
    | Some (AttrN _) => Panics panic_nil_dereference m w'
    | v => Return tt (adopt m v) w'
    end /\
  requests w' = requests w ++ [attempt_request m (tested_world w)] /\
  sleeps w' = sleeps w /\
  stored "LockerID" m (db w') = Some (AttrN (id m)) /\
  stored "Value" m (db w') = stored "Value" m (db w).
Proof.
  cbv zeta. rewrite (Lock_initialized _ m w Hinit). cbn [Lock_loop]. unfold Lock_turn.
  rewrite (tryLock_reached m (tested_world w) s Hs) by assumption.
  change (db (tested_world w)) with (db w).
  rewrite (free_for_may_acquire m (db w) _ Hfree).
  split.
  - destruct (stored "Value" m (db w)) as [[v|n]|]; reflexivity.
  - repeat split.
    + cbn [acquired_world db set_db]. rewrite stored_acquired.
      apply acquired_record_lookup.
    + cbn [acquired_world db set_db]. rewrite stored_acquired.
      rewrite acquired_record_other by discriminate. apply stored_default.
Qed.

Lemma Lock_acquires_at_once_witness :
  initialized holder = true /\
  DDBSession holder = Some calm_session /\
  store_ok (db held_world) /\
  fault held_world (length (requests held_world)) = None /\
  free_for holder (db held_world) /\
  stored "Value" holder (db held_world) = None /\
  Lock 1 holder held_world
    = match stored "Value" holder (db held_world) with
      | Some (AttrN _) =>
          Panics panic_nil_dereference holder (acquired_world holder (tested_world held_world))
      | v => Return tt (adopt holder v) (acquired_world holder (tested_world held_world))
      end.
Proof.
  assert (H1 : initialized holder = true) by reflexivity.
  assert (H2 : DDBSession holder = Some calm_session) by reflexivity.
  pose proof held_world_store_ok as H3.
  assert (H4 : fault held_world (length (requests held_world)) = None)
    by (vm_compute; reflexivity).
  assert (H5 : free_for holder (db held_world))
    by (right; right; vm_compute; reflexivity).
  assert (H6 : stored "Value" holder (db held_world) = None) by (vm_compute; reflexivity).
  split; [exact H1|]. split; [exact H2|]. split; [exact H3|]. split; [exact H4|].
  split; [exact H5|]. split; [exact H6|].
  exact (proj1 (Lock_acquires_at_once 0 holder held_world calm_session H1 H2 H3 H4 H5)).
Defined.

(** [Lock] on a free record, for the proofs that follow. *)
Lemma Lock_free_record fuel m w s :
  initialized m = true -> DDBSession m = Some s -> store_ok (db w) ->
  fault w (length (requests w)) = None -> free_for m (db w) -> value_readable m (db w) ->
  Lock (S fuel) m w
  = Return tt (adopt m (stored "Value" m (db w))) (acquired_world m (tested_world w)).
Proof.
  intros Hinit Hs Hok Hfault Hfree Hvalue.
  rewrite (Lock_initialized _ m w Hinit). cbn [Lock_loop]. unfold Lock_turn.
  rewrite (tryLock_reached m (tested_world w) s Hs) by assumption.
  change (db (tested_world w)) with (db w).
  rewrite (free_for_may_acquire m (db w) _ Hfree).
  unfold value_readable in Hvalue.
  destruct (stored "Value" m (db w)) as [[v|n]|] eqn:E; try reflexivity.
  exfalso. exact (Hvalue n eq_refl).
Qed.

(** [Unlock] by an initialized client whose release condition holds. *)
Lemma Unlock_released fuel m w s :
  initialized m = true -> DDBSession m = Some s -> store_ok (db w) ->
  fault w (length (requests w)) = None -> may_release m (record_of m (db w)) = true ->
  Unlock fuel m w = Return tt m (released_world m w).
Proof.
  intros Hinit Hs Hok Hfault Hrel. unfold Unlock.
  rewrite initialization_initialized by assumption. cbn [bind].
  rewrite (tryUnlock_reached m w s Hs Hfault Hok), Hrel. reflexivity.
Qed.

(** [Unlock] by an initialized client whose release condition fails. *)
Lemma Unlock_refused fuel m w s :
  initialized m = true -> DDBSession m = Some s -> store_ok (db w) ->
  fault w (length (requests w)) = None -> may_release m (record_of m (db w)) = false ->
  Unlock fuel m w = Panics could_not_unlock m (unlock_refused_world m w).
Proof.
  intros Hinit Hs Hok Hfault Hrel. unfold Unlock.
  rewrite initialization_initialized by assumption. cbn [bind].
  rewrite (tryUnlock_reached m w s Hs Hfault Hok), Hrel. reflexivity.
Qed.

Lemma store_ok_released m w : store_ok (db w) -> store_ok (db (released_world m w)).
Proof.
  intros Hok. cbn [released_world db set_db].
  apply store_ok_insert; [assumption|apply released_record_lookup].
Qed.

Lemma store_ok_acquired m w : store_ok (db w) -> store_ok (db (acquired_world m w)).
Proof.
  intros Hok. cbn [acquired_world db set_db].
  apply store_ok_insert; [assumption|apply acquired_record_lookup].
Qed.

(** The record of [m] is also the record of every Mutex on the same table and
    name. *)
Lemma stored_same_lock a m m' d :
  DDBTableName m' = DDBTableName m -> Name m' = Name m -> stored a m' d = stored a m d.
Proof. unfold stored, record_of. now intros -> ->. Qed.

(** ** Handing a value over *)

(** X3: the value a client writes with [SetValueStringAndUnlock] is the value
    the next [LockAndGetValueString] returns, for any client on the same lock
    (in its own world around the store the release left): the release writes
    the value and frees the record, and the acquisition reads it back. *)
Theorem value_handed_over fuel a wa sa v b wb sb
    (Ha : initialized a = true) (Hsa : DDBSession a = Some sa)
    (Hok : store_ok (db wa))
    (Hfa : fault wa (length (requests wa)) = None)
    (Hrelease : may_release a (record_of a (db wa)) = true)
    (Hb : initialized b = true) (Hsb : DDBSession b = Some sb)
    (Htable : DDBTableName b = DDBTableName a) (Hname : Name b = Name a)
    (Hstore : db wb = db (released_world (SetValueString a v) wa))
    (Hfb : fault wb (length (requests wb)) = None) :
  SetValueStringAndUnlock fuel a v wa
    = Return tt (SetValueString a v) (released_world (SetValueString a v) wa) /\
  LockAndGetValueString (S fuel) b wb
    = Return v (SetValueString b v) (acquired_world b (tested_world wb)).
Proof.
  set (a' := SetValueString a v).
  assert (Hrel' : may_release a' (record_of a' (db wa)) = true) by exact Hrelease.
  split.
  - unfold SetValueStringAndUnlock. fold a'. now apply (Unlock_released fuel a' wa sa).
  - assert (Hok' : store_ok (db wb)) by (rewrite Hstore; now apply store_ok_released).
    assert (Hv : stored "Value" b (db wb) = Some (AttrS v)).
    { rewrite Hstore. rewrite (stored_same_lock _ a' b) by assumption.
      cbn [released_world db set_db]. rewrite stored_released.
      apply released_record_stored. }
    assert (Hl : stored "LockerID" b (db wb) = Some (AttrN 0)).
    { rewrite Hstore. rewrite (stored_same_lock _ a' b) by assumption.
      cbn [released_world db set_db]. rewrite stored_released.
      apply released_record_stored. }
    unfold LockAndGetValueString.
    rewrite (Lock_free_record fuel b wb sb); auto.
    + rewrite Hv. reflexivity.
    + right. left. exact Hl.
    + intros n. rewrite Hv. discriminate.
Qed.

Lemma value_handed_over_witness :
  initialized holder = true /\ DDBSession holder = Some calm_session /\
  store_ok (db held_world) /\
  fault held_world (length (requests held_world)) = None /\
  may_release holder (record_of holder (db held_world)) = true /\
  initialized contender = true /\ DDBSession contender = Some calm_session /\
  DDBTableName contender = DDBTableName holder /\ Name contender = Name holder /\
  db handed_world = db (released_world (SetValueString holder "hello") held_world) /\
  fault handed_world (length (requests handed_world)) = None /\
  SetValueStringAndUnlock 1 holder "hello" held_world
    = Return tt (SetValueString holder "hello")
        (released_world (SetValueString holder "hello") held_world) /\
  LockAndGetValueString 2 contender handed_world
    = Return "hello"%string (SetValueString contender "hello")
        (acquired_world contender (tested_world handed_world)).
Proof.
  assert (H1 : initialized holder = true) by (vm_compute; reflexivity).
  assert (H2 : DDBSession holder = Some calm_session) by (vm_compute; reflexivity).
  pose proof held_world_store_ok as H3.
  assert (H4 : fault held_world (length (requests held_world)) = None)
    by (vm_compute; reflexivity).
  assert (H5 : may_release holder (record_of holder (db held_world)) = true)
    by (vm_compute; reflexivity).
  assert (H6 : initialized contender = true) by (vm_compute; reflexivity).
  assert (H7 : DDBSession contender = Some calm_session) by (vm_compute; reflexivity).
  assert (H8 : DDBTableName contender = DDBTableName holder) by (vm_compute; reflexivity).
  assert (H9 : Name contender = Name holder) by (vm_compute; reflexivity).
  assert (H10 : db handed_world
                = db (released_world (SetValueString holder "hello") held_world))
    by (vm_compute; reflexivity).
  assert (H11 : fault handed_world (length (requests handed_world)) = None)
    by (vm_compute; reflexivity).
  split; [exact H1|]. split; [exact H2|]. split; [exact H3|]. split; [exact H4|].
  split; [exact H5|]. split; [exact H6|]. split; [exact H7|]. split; [exact H8|].
  split; [exact H9|]. split; [exact H10|]. split; [exact H11|].
  exact (value_handed_over 1 holder held_world calm_session "hello" contender handed_world
           calm_session H1 H2 H3 H4 H5 H6 H7 H8 H9 H10 H11).
Defined.

(** ** Unlocking twice *)

Lemma stored_record a m d v :
  stored a m d = Some v -> exists item, record_of m d = Some item /\ item !! a = Some v.
Proof.
  unfold stored. destruct (record_of m d) as [item|]; [eauto|discriminate].
Qed.

Lemma may_release_other_holder m d other :
  stored "LockerID" m d = Some (AttrN other) -> other <> id m ->
  may_release m (record_of m d) = false.
Proof.
  intros H Hne. apply stored_record in H as (item & Hr & Hi).
  apply may_release_false. exists item. split; [assumption|].
  rewrite Hi. intros [= ?]. contradiction.
Qed.

(** X4: an initialized client (its identifier is not 0) that has released the
    lock cannot release it again: the first [Unlock] leaves the record with
    holder 0, so that the second one fails with NotHolder, after one refused
    request that leaves the store as the first one left it. *)
Theorem Unlock_twice fuel m w s
    (Hinit : initialized m = true) (Hs : DDBSession m = Some s)
    (Hid : id m <> 0)
    (Hok : store_ok (db w))
    (Hfault : fault w (length (requests w)) = None)
    (Hfault' : fault w (S (length (requests w))) = None)
    (Hrelease : may_release m (record_of m (db w)) = true) :
  let w1 := released_world m w in
  Unlock fuel m w = Return tt m w1 /\
  stored "LockerID" m (db w1) = Some (AttrN 0) /\
  Unlock fuel m w1 = Panics could_not_unlock m (unlock_refused_world m w1) /\
  failure_of could_not_unlock = NotHolder /\
  requests (unlock_refused_world m w1) = requests w1 ++ [release_request m w1] /\
  db (unlock_refused_world m w1) = db w1.
Proof.
  cbv zeta.
  assert (Hl : stored "LockerID" m (db (released_world m w)) = Some (AttrN 0)).
  { cbn [released_world db set_db]. rewrite stored_released.
    apply released_record_stored. }
  split; [now apply (Unlock_released fuel m w s)|]. split; [exact Hl|].
  split; [|now repeat split].
  apply (Unlock_refused fuel m _ s); auto.
  - now apply store_ok_released.
  - cbn [released_world requests fault set_db set_clock_reads].
    rewrite length_app. cbn [length]. rewrite Nat.add_1_r. exact Hfault'.
  - apply (may_release_other_holder m _ 0); [exact Hl|congruence].
Qed.

Lemma Unlock_twice_witness :
  initialized holder = true /\ DDBSession holder = Some calm_session /\
  id holder <> 0 /\ store_ok (db held_world) /\
  fault held_world (length (requests held_world)) = None /\
  fault held_world (S (length (requests held_world))) = None /\
  may_release holder (record_of holder (db held_world)) = true /\
  Unlock 1 holder held_world = Return tt holder (released_world holder held_world) /\
  Unlock 1 holder (released_world holder held_world)
    = Panics could_not_unlock holder
        (unlock_refused_world holder (released_world holder held_world)).
Proof.
  assert (H1 : initialized holder = true) by (vm_compute; reflexivity).
  assert (H2 : DDBSession holder = Some calm_session) by (vm_compute; reflexivity).
  assert (H3 : id holder <> 0) by (vm_compute; discriminate).
  pose proof held_world_store_ok as H4.
  assert (H5 : fault held_world (length (requests held_world)) = None)
    by (vm_compute; reflexivity).
  assert (H6 : fault held_world (S (length (requests held_world))) = None)
    by (vm_compute; reflexivity).
  assert (H7 : may_release holder (record_of holder (db held_world)) = true)
    by (vm_compute; reflexivity).
  split; [exact H1|]. split; [exact H2|]. split; [exact H3|]. split; [exact H4|].
  split; [exact H5|]. split; [exact H6|]. split; [exact H7|].
  destruct (Unlock_twice 1 holder held_world calm_session H1 H2 H3 H4 H5 H6 H7)
    as (Ha & _ & Hb & _).
  split; [exact Ha|exact Hb].
Defined.

(** ** Errors of the store *)

(** X5: an error of the store that is not a failed condition is not retried:
    [Lock] and [Unlock] of an initialized client panic with that very error
    after the one request that met it, without sleeping and with the store as
    it was. *)
Theorem store_error_not_retried fuel m w s e
    (Hinit : initialized m = true) (Hs : DDBSession m = Some s)
    (Hfault : fault w (length (requests w)) = Some e)
    (He : is_ConditionalCheckFailed e = false) :
  Lock (S fuel) m w = Panics (panic_error e) m (lock_refused_world m (tested_world w)) /\
  Unlock fuel m w = Panics (panic_error e) m (unlock_refused_world m w) /\
  db (lock_refused_world m (tested_world w)) = db w /\
  db (unlock_refused_world m w) = db w /\
  sleeps (lock_refused_world m (tested_world w)) = sleeps w /\
  length (requests (lock_refused_world m (tested_world w))) = S (length (requests w)) /\
  length (requests (unlock_refused_world m w)) = S (length (requests w)).
Proof.
  split; [|split].
  - rewrite (Lock_initialized _ m w Hinit). cbn [Lock_loop]. unfold Lock_turn.
    rewrite (tryLock_fault m (tested_world w) s e Hs Hfault), He. reflexivity.
  - unfold Unlock. rewrite initialization_initialized by assumption. cbn [bind].
    rewrite (tryUnlock_fault m w s e Hs Hfault). cbn [bind]. now rewrite He.
  - repeat split; cbn [lock_refused_world unlock_refused_world requests set_db];
      rewrite length_app; cbn [length tested_world UnixNano snd requests set_clock_reads];
      lia.
Qed.

Lemma store_error_not_retried_witness :
  initialized holder = true /\ DDBSession holder = Some calm_session /\
  fault (throttled held_world) (length (requests (throttled held_world)))
    = Some (awserr "ProvisionedThroughputExceededException") /\
  is_ConditionalCheckFailed (awserr "ProvisionedThroughputExceededException") = false /\
  Lock 1 holder (throttled held_world)
    = Panics (panic_error (awserr "ProvisionedThroughputExceededException")) holder
        (lock_refused_world holder (tested_world (throttled held_world))) /\
  Unlock 1 holder (throttled held_world)
    = Panics (panic_error (awserr "ProvisionedThroughputExceededException")) holder
        (unlock_refused_world holder (throttled held_world)).
Proof.
  assert (H1 : initialized holder = true) by (vm_compute; reflexivity).
  assert (H2 : DDBSession holder = Some calm_session) by (vm_compute; reflexivity).
  assert (H3 : fault (throttled held_world) (length (requests (throttled held_world)))
               = Some (awserr "ProvisionedThroughputExceededException"))
    by (vm_compute; reflexivity).
  assert (H4 : is_ConditionalCheckFailed (awserr "ProvisionedThroughputExceededException")
               = false) by (vm_compute; reflexivity).
  split; [exact H1|]. split; [exact H2|]. split; [exact H3|]. split; [exact H4|].
  destruct (store_error_not_retried 0 holder (throttled held_world) calm_session _
              H1 H2 H3 H4) as (Ha & _).
  destruct (store_error_not_retried 1 holder (throttled held_world) calm_session _
              H1 H2 H3 H4) as (_ & Hb & _).
  split; [exact Ha|exact Hb].
Defined.

(** ** Expiry *)

(** X6: with an expiry, a client takes a lock that another session holds
    exactly when the record was last written more than [Expiry] before the
    clock of the attempt; it then holds the lock, and the [Unlock] of the
    former holder fails with NotHolder. *)
Theorem stale_lock_is_seized m w s other lastwrite
    (Hs : DDBSession m = Some s)
    (Hexpiry : 0 < Expiry m)
    (Hok : store_ok (db w))
    (Hfault : fault w (length (requests w)) = None)
    (Hholder : stored "LockerID" m (db w) = Some (AttrN other))
    (Hother : other <> 0 /\ other <> id m)
    (Hlastwrite : stored "LastWrite" m (db w) = Some (AttrN lastwrite))
    (Hvalue : value_readable m (db w))
    (Hrange : in_int64 (now w (S (clock_reads w)) - Expiry m)) :
  tryLock m w =
    (if lastwrite <? now w (S (clock_reads w)) - Expiry m
     then Return None (adopt m (stored "Value" m (db w))) (acquired_world m w)
     else Return (Some (awserr ErrCodeConditionalCheckFailedException)) m
                 (lock_refused_world m w)) /\
  stored "LockerID" m (db (acquired_world m w)) = Some (AttrN (id m)) /\
  forall fuel h wh sh,
    initialized h = true -> DDBSession h = Some sh -> id h = other ->
    DDBTableName h = DDBTableName m -> Name h = Name m ->
    db wh = db (acquired_world m w) -> fault wh (length (requests wh)) = None ->
    Unlock fuel h wh = Panics could_not_unlock h (unlock_refused_world h wh).
Proof.
  destruct Hother as [H0 Hne].
  assert (Hl : stored "LockerID" m (db (acquired_world m w)) = Some (AttrN (id m))).
  { cbn [acquired_world db set_db]. rewrite stored_acquired. apply acquired_record_lookup. }
  split; [|split; [exact Hl|]].
  - rewrite (tryLock_reached m w s Hs Hfault Hok).
    assert (Hacq : may_acquire m (now w (S (clock_reads w))) (record_of m (db w))
                   = (lastwrite <? now w (S (clock_reads w)) - Expiry m)).
    { destruct (stored_record _ _ _ _ Hholder) as (item & Hr & Hi).
      unfold stored in Hlastwrite. rewrite Hr in Hlastwrite.
      unfold may_acquire. rewrite Hr, Hi, Hlastwrite. cbn [attr_eqb attr_ltb].
      rewrite wrap64_in_range by assumption.
      replace (other =? 0) with false by (symmetry; lia).
      replace (other =? id m) with false by (symmetry; lia).
      replace (0 <? Expiry m) with true by (symmetry; lia). reflexivity. }
    rewrite Hacq. destruct (lastwrite <? _); [|reflexivity].
    unfold value_readable in Hvalue.
    destruct (stored "Value" m (db w)) as [[v|n]|] eqn:E; try reflexivity.
    exfalso. exact (Hvalue n eq_refl).
  - intros fuel h wh sh Hi Hsh Hid Ht Hn Hdb Hf.
    apply (Unlock_refused fuel h wh sh); auto.
    + rewrite Hdb. now apply store_ok_acquired.
    + apply (may_release_other_holder h (db wh) (id m)); [|congruence].
      rewrite Hdb, (stored_same_lock _ m h) by assumption. exact Hl.
Qed.


Lemma contender_world_store_ok : store_ok (db contender_world).
Proof.
  assert (E : db contender_world = db held_world) by (vm_compute; reflexivity).
  rewrite E. exact held_world_store_ok.
Qed.

Lemma stale_lock_is_seized_witness :
  DDBSession seizer = Some calm_session /\
  0 < Expiry seizer /\
  store_ok (db contender_world) /\
  fault contender_world (length (requests contender_world)) = None /\
  stored "LockerID" seizer (db contender_world) = Some (AttrN 7) /\
  (7 <> 0 /\ 7 <> id seizer) /\
  stored "LastWrite" seizer (db contender_world) = Some (AttrN 1020) /\
  value_readable seizer (db contender_world) /\
  in_int64 (now contender_world (S (clock_reads contender_world)) - Expiry seizer) /\
  tryLock seizer contender_world =
    (if 1020 <? now contender_world (S (clock_reads contender_world)) - Expiry seizer
     then Return None (adopt seizer (stored "Value" seizer (db contender_world)))
            (acquired_world seizer contender_world)
     else Return (Some (awserr ErrCodeConditionalCheckFailedException)) seizer
                 (lock_refused_world seizer contender_world)) /\
  (1020 <? now contender_world (S (clock_reads contender_world)) - Expiry seizer) = true.
Proof.
  assert (H1 : DDBSession seizer = Some calm_session) by (vm_compute; reflexivity).
  assert (H2 : 0 < Expiry seizer) by (vm_compute; reflexivity).
  pose proof contender_world_store_ok as H3.
  assert (H4 : fault contender_world (length (requests contender_world)) = None)
    by (vm_compute; reflexivity).
  assert (H5 : stored "LockerID" seizer (db contender_world) = Some (AttrN 7))
    by (vm_compute; reflexivity).
  assert (H6 : 7 <> 0 /\ 7 <> id seizer) by (split; vm_compute; discriminate).
  assert (H7 : stored "LastWrite" seizer (db contender_world) = Some (AttrN 1020))
    by (vm_compute; reflexivity).
  assert (H8 : value_readable seizer (db contender_world))
    by (intros n; vm_compute; discriminate).
  assert (H9 : in_int64 (now contender_world (S (clock_reads contender_world))
                         - Expiry seizer))
    by (vm_compute; split; discriminate).
  split; [exact H1|]. split; [exact H2|]. split; [exact H3|]. split; [exact H4|].
  split; [exact H5|]. split; [exact H6|]. split; [exact H7|]. split; [exact H8|].
  split; [exact H9|].
  split; [|vm_compute; reflexivity].
  exact (proj1 (stale_lock_is_seized seizer contender_world calm_session 7 1020
                  H1 H2 H3 H4 H5 H6 H7 H8 H9)).
Defined.

(** ** The log of a call of Lock *)

Lemma tryLock_error_same_mutex m w err m1 w1 :
  tryLock m w = Return (Some err) m1 w1 -> m1 = m.
Proof.
  unfold tryLock.
  destruct (UnixNano w) as [lastwrite w2].
  destruct (if 0 <? Expiry m then UnixNano w2 else (0, w2)) as [expired w3].
  destruct (DDBSession m); [|discriminate].
  destruct (call_UpdateItem _ w3) as [[attributes|e] w4]; [|now intros [= _ <- _]].
  destruct (attributes !! "Value"%string) as [[v|n]|]; discriminate.
Qed.

Lemma tryLock_log m w s :
  DDBSession m = Some s ->
  tryLock m w <> OutOfFuel /\
  length (requests (world_after (tryLock m w) w)) = S (length (requests w)) /\
  sleeps (world_after (tryLock m w) w) = sleeps w.
Proof.
  intros Hs. pose proof (tryLock_requests m w s Hs) as Hr.
  rewrite (tryLock_unfold m w s Hs) in *. cbv zeta in *.
  unfold call_UpdateItem in *.
  destruct (match fault _ _ with Some e => _ | None => _ end) as [[attrs|e] d'].
  - destruct (attrs !! "Value"%string) as [[v|n]|]; cbn [world_after] in *;
      (split; [discriminate|]); rewrite Hr, length_app; cbn [length]; split;
      try lia; reflexivity.
  - cbn [world_after] in *. split; [discriminate|].
    rewrite Hr, length_app. cbn [length]. split; [lia|reflexivity].
Qed.

Lemma world_after_ended {A : Type} (o : Outcome A) w w' :
  o <> OutOfFuel -> world_after o w = world_after o w'.
Proof. destruct o; [reflexivity|reflexivity|now intros H; contradiction H]. Qed.

(** What a call of the loop of [Lock] that ends has logged: one request for
    every turn, and one sleep between two turns. *)
Lemma Lock_loop_log s fuel : forall started m w,
  DDBSession m = Some s ->
  Lock_loop fuel started m w <> OutOfFuel ->
  exists ks,
    sleeps (world_after (Lock_loop fuel started m w) w)
      = sleeps w ++ map (fun k => k * Millisecond) ks /\
    Forall (fun k => 0 <= k < 10) ks /\
    length (requests (world_after (Lock_loop fuel started m w) w))
      = (length (requests w) + S (length ks))%nat.
Proof.
  induction fuel as [|fuel IH]; intros started m w Hs Hend; [now contradiction Hend|].
  cbn [Lock_loop] in *. unfold Lock_turn in *.
  destruct (tryLock_log m w s Hs) as (Hfuel & Hreq & Hsl).
  destruct (tryLock m w) as [[err|] m1 w1|p m1 w1|] eqn:E; cbn [world_after] in *.
  - apply tryLock_error_same_mutex in E as ->.
    destruct (is_ConditionalCheckFailed err).
    + change (UnixNano w1) with (now w1 (clock_reads w1), tested_world w1) in *.
      cbv iota in *.
      destruct (started <? wrap64 (now w1 (clock_reads w1) - timeout m)).
      * exists []. cbn [world_after map length]. rewrite app_nil_r.
        repeat split; [exact Hsl|constructor|]. cbn [tested_world UnixNano snd requests
          set_clock_reads]. lia.
      * change (let '(r, w0) := Intn 10 (tested_world w1) in
                Retry m (Sleep (wrap64 (r * Millisecond)) w0))
          with (Retry m (retry_world w1)) in *.
        cbv iota in *.
        destruct (retry_world_sleeps w1) as (Hs1 & Hr1 & _).
        destruct (IH started m (retry_world w1) Hs Hend) as (ks & Hks & Hall & Hlen).
        rewrite (world_after_ended _ w (retry_world w1) Hend).
        exists (backoff w1 :: ks). rewrite Hks, Hs1, Hsl, Hlen, Hr1, Hreq.
        cbn [map length]. rewrite <- app_assoc. repeat split.
        -- constructor; [apply backoff_range|exact Hall].
        -- lia.
    + exists []. cbn [world_after map length]. rewrite app_nil_r.
      repeat split; [exact Hsl|constructor|lia].
  - exists []. cbn [world_after map length]. rewrite app_nil_r.
    repeat split; [exact Hsl|constructor|lia].
  - exists []. cbn [world_after map length]. rewrite app_nil_r.
    repeat split; [exact Hsl|constructor|lia].
  - now contradiction Hfuel.
Qed.

(** X7: a call of [Lock] by an initialized client that ends, by returning or
    by panicking, has slept between two attempts only, each time for a whole
    number of milliseconds below ten, and has sent one request more than it
    has slept. *)
Theorem Lock_backoff fuel m w s
    (Hinit : initialized m = true) (Hs : DDBSession m = Some s)
    (Hend : Lock fuel m w <> OutOfFuel) :
  exists ks,
    sleeps (world_after (Lock fuel m w) w) = sleeps w ++ map (fun k => k * Millisecond) ks /\
    Forall (fun k => 0 <= k < 10) ks /\
    length (requests (world_after (Lock fuel m w) w))
      = (length (requests w) + S (length ks))%nat.
Proof.
  rewrite (Lock_initialized fuel m w Hinit) in *.
  destruct (Lock_loop_log s fuel _ m (tested_world w) Hs Hend) as (ks & Hks & Hall & Hlen).
  rewrite (world_after_ended _ w (tested_world w) Hend).
  exists ks. repeat split; assumption.
Qed.

Lemma Lock_backoff_witness :
  initialized patient = true /\ DDBSession patient = Some calm_session /\
  Lock 10 patient contender_world <> OutOfFuel /\
  exists ks,
    sleeps (world_after (Lock 10 patient contender_world) contender_world)
      = sleeps contender_world ++ map (fun k => k * Millisecond) ks /\
    Forall (fun k => 0 <= k < 10) ks /\
    length (requests (world_after (Lock 10 patient contender_world) contender_world))
      = (length (requests contender_world) + S (length ks))%nat.
Proof.
  assert (H1 : initialized patient = true) by (vm_compute; reflexivity).
  assert (H2 : DDBSession patient = Some calm_session) by (vm_compute; reflexivity).
  assert (H3 : Lock 10 patient contender_world <> OutOfFuel) by (vm_compute; discriminate).
  split; [exact H1|]. split; [exact H2|]. split; [exact H3|].
  exact (Lock_backoff 10 patient contender_world calm_session H1 H2 H3).
Defined.

(** ** A lock held by another session *)

Lemma may_acquire_held m now_ d other :
  Expiry m <= 0 -> stored "LockerID" m d = Some (AttrN other) ->
  other <> 0 -> other <> id m ->
  may_acquire m now_ (record_of m d) = false.
Proof.
  intros HE Hh H0 Hne. apply stored_record in Hh as (item & Hr & Hi).
  unfold may_acquire. rewrite Hr, Hi. cbn [attr_eqb].
  replace (other =? 0) with false by (symmetry; lia).
  replace (other =? id m) with false by (symmetry; lia).
  replace (0 <? Expiry m) with false by (symmetry; lia). reflexivity.
Qed.

(** The loop of [Lock] on a lock that another session holds, when no request
    fails on its way. *)
Lemma Lock_loop_held s other fuel : forall started m w,
  DDBSession m = Some s -> Expiry m <= 0 -> store_ok (db w) ->
  (forall n, fault w n = None) ->
  stored "LockerID" m (db w) = Some (AttrN other) -> other <> 0 -> other <> id m ->
  match Lock_loop fuel started m w with
  | Return _ _ _ => False
  | Panics p m' w' => p = could_not_lock /\ m' = m /\ db w' = db w
  | OutOfFuel => True
  end.
Proof.
  induction fuel as [|fuel IH]; intros started m w Hs HE Hok Hf Hh H0 Hne; [exact I|].
  cbn [Lock_loop].
  assert (Htry : tryLock m w
                 = Return (Some (awserr ErrCodeConditionalCheckFailedException)) m
                     (lock_refused_world m w)).
  { rewrite (tryLock_reached m w s Hs (Hf _) Hok).
    now rewrite (may_acquire_held m _ (db w) other). }
  rewrite (Lock_turn_refused started m w _ m _ Htry eq_refl).
  destruct (started <? wrap64 _); [now repeat split|].
  destruct (retry_world_sleeps (lock_refused_world m w)) as (_ & _ & Hdb).
  specialize (IH started m (retry_world (lock_refused_world m w)) Hs HE).
  rewrite Hdb in IH. cbn [lock_refused_world db set_db] in IH.
  specialize (IH Hok (fun n => Hf n) Hh H0 Hne).
  destruct (Lock_loop fuel started m _) as [a m' w'|p m' w'|]; [exact IH| |exact I].
  destruct IH as (-> & -> & ->). now repeat split.
Qed.

(** X8: while another session holds the lock and the client has no expiry,
    [Lock] never returns: as long as no request fails on its way, every attempt
    is refused, and the call can only end by panicking with "could not lock
    mutex" (FailedToAcquire), leaving the store and the client as they were. *)
Theorem Lock_on_held_lock fuel m w s other
    (Hinit : initialized m = true) (Hs : DDBSession m = Some s)
    (Hexpiry : Expiry m <= 0)
    (Hok : store_ok (db w))
    (Hfault : forall n, fault w n = None)
    (Hholder : stored "LockerID" m (db w) = Some (AttrN other))
    (Hother : other <> 0 /\ other <> id m) :
  match Lock fuel m w with
  | Return _ _ _ => False
  | Panics p m' w' =>
      p = could_not_lock /\ failure_of p = FailedToAcquire /\ m' = m /\ db w' = db w
  | OutOfFuel => True
  end.
Proof.
  destruct Hother as [H0 Hne].
  rewrite (Lock_initialized fuel m w Hinit).
  pose proof (Lock_loop_held s other fuel (now w (clock_reads w)) m (tested_world w)
                Hs Hexpiry Hok Hfault Hholder H0 Hne) as H.
  destruct (Lock_loop fuel _ m (tested_world w)) as [a m' w'|p m' w'|]; [exact H| |exact I].
  destruct H as (-> & -> & Hdb). now repeat split.
Qed.

Lemma Lock_on_held_lock_witness :
  initialized patient = true /\ DDBSession patient = Some calm_session /\
  Expiry patient <= 0 /\ store_ok (db contender_world) /\
  (forall n, fault contender_world n = None) /\
  stored "LockerID" patient (db contender_world) = Some (AttrN 7) /\
  (7 <> 0 /\ 7 <> id patient) /\
  match Lock 10 patient contender_world with
  | Return _ _ _ => False
  | Panics p m' w' =>
      p = could_not_lock /\ failure_of p = FailedToAcquire /\ m' = patient /\
      db w' = db contender_world
  | OutOfFuel => True
  end /\
  Lock 10 patient contender_world <> OutOfFuel.
Proof.
  assert (H1 : initialized patient = true) by (vm_compute; reflexivity).
  assert (H2 : DDBSession patient = Some calm_session) by (vm_compute; reflexivity).
  assert (H3 : Expiry patient <= 0) by (vm_compute; discriminate).
  pose proof contender_world_store_ok as H4.
  assert (H5 : forall n, fault contender_world n = None) by (intros n; reflexivity).
  assert (H6 : stored "LockerID" patient (db contender_world) = Some (AttrN 7))
    by (vm_compute; reflexivity).
  assert (H7 : 7 <> 0 /\ 7 <> id patient) by (split; vm_compute; discriminate).
  split; [exact H1|]. split; [exact H2|]. split; [exact H3|]. split; [exact H4|].
  split; [exact H5|]. split; [exact H6|]. split; [exact H7|].
  split; [|vm_compute; discriminate].
  exact (Lock_on_held_lock 10 patient contender_world calm_session 7
           H1 H2 H3 H4 H5 H6 H7).
Defined.

(** ** The records of other locks *)

Lemma writes_only_refl k d : writes_only k d d.
Proof. now split. Qed.

Lemma writes_only_trans k d1 d2 d3 :
  writes_only k d1 d2 -> writes_only k d2 d3 -> writes_only k d1 d3.
Proof.
  intros [H1 H1'] [H2 H2']. split.
  - intros k' Hne. now rewrite H2, H1.
  - intros k' H. auto.
Qed.

Lemma writes_only_insert (k : string * string) (item : Item) (d : Store) :
  writes_only k d (<[k := item]> d).
Proof.
  split.
  - intros k' Hne. now rewrite lookup_insert_ne.
  - intros k' H. destruct (decide (k = k')) as [->|Hne].
    + rewrite lookup_insert_eq. eauto.
    + now rewrite lookup_insert_ne.
Qed.

(** [UpdateItem] changes at most the record of its key, and removes none. *)
Lemma UpdateItem_writes_only inp d :
  writes_only (TableName inp, Key inp) d (UpdateItem inp d).2.
Proof.
  unfold UpdateItem. cbv zeta.
  destruct (eval _ _ _ (ConditionExpression inp)) as [[|]|];
    try destruct (apply_set _ _ (UpdateExpression inp) _);
    cbn [snd]; auto using writes_only_refl, writes_only_insert.
Qed.

Lemma call_UpdateItem_writes_only inp w :
  writes_only (TableName inp, Key inp) (db w) (db (call_UpdateItem inp w).2).
Proof.
  unfold call_UpdateItem. pose proof (UpdateItem_writes_only inp (db w)) as H.
  destruct (fault w (length (requests w))); [apply writes_only_refl|].
  destruct (UpdateItem inp (db w)) as [res d']. exact H.
Qed.

Lemma tryLock_writes_only m w :
  writes_only (DDBTableName m, Name m) (db w) (db (world_after (tryLock m w) w)).
Proof.
  destruct (DDBSession m) as [s|] eqn:Hs.
  - rewrite (tryLock_unfold m w s Hs). cbv zeta.
    match goal with |- context [call_UpdateItem ?i ?w1] =>
      pose proof (call_UpdateItem_writes_only i w1) as H;
      destruct (call_UpdateItem i w1) as [[attrs|e] w2] end; cbn [snd] in H.
    + destruct (attrs !! "Value"%string) as [[v|n]|]; exact H.
    + exact H.
  - unfold tryLock, UnixNano. rewrite Hs.
    destruct (0 <? Expiry m); apply writes_only_refl.
Qed.

Lemma tryUnlock_writes_only m w :
  writes_only (DDBTableName m, Name m) (db w) (db (world_after (tryUnlock m w) w)).
Proof.
  destruct (DDBSession m) as [s|] eqn:Hs.
  - rewrite (tryUnlock_unfold m w s Hs).
    match goal with |- context [call_UpdateItem ?i ?w1] =>
      pose proof (call_UpdateItem_writes_only i w1) as H;
      destruct (call_UpdateItem i w1) as [[attrs|e] w2] end; exact H.
  - unfold tryUnlock, UnixNano. rewrite Hs. apply writes_only_refl.
Qed.

Lemma Lock_loop_writes_only fuel : forall started m w,
  writes_only (DDBTableName m, Name m) (db w)
    (db (world_after (Lock_loop fuel started m w) w)).
Proof.
  induction fuel as [|fuel IH]; intros started m w; [apply writes_only_refl|].
  cbn [Lock_loop]. unfold Lock_turn.
  pose proof (tryLock_writes_only m w) as Ht.
  destruct (tryLock m w) as [[err|] m1 w1|p m1 w1|] eqn:E; cbn [world_after] in *;
    try exact Ht.
  apply tryLock_error_same_mutex in E as ->.
  destruct (is_ConditionalCheckFailed err); [|exact Ht].
  change (UnixNano w1) with (now w1 (clock_reads w1), tested_world w1). cbv iota.
  destruct (started <? wrap64 _); [exact Ht|].
  change (let '(r, w0) := Intn 10 (tested_world w1) in
          Retry m (Sleep (wrap64 (r * Millisecond)) w0))
    with (Retry m (retry_world w1)). cbv iota.
  specialize (IH started m (retry_world w1)).
  destruct (Lock_loop fuel started m (retry_world w1)) as [a m' w'|p m' w'|];
    cbn [world_after] in *; [| |apply writes_only_refl];
    (eapply writes_only_trans; [exact Ht|exact IH]).
Qed.

(** X9: [Lock] and [Unlock] of an initialized client, however they end, leave
    the records of all other locks (other names, other tables) as they are,
    and remove no record from the store. *)
Theorem other_locks_untouched fuel m w
    (Hinit : initialized m = true) :
  writes_only (DDBTableName m, Name m) (db w) (db (world_after (Lock fuel m w) w)) /\
  writes_only (DDBTableName m, Name m) (db w) (db (world_after (Unlock fuel m w) w)).
Proof.
  split.
  - rewrite (Lock_initialized fuel m w Hinit).
    pose proof (Lock_loop_writes_only fuel (now w (clock_reads w)) m (tested_world w)) as H.
    destruct (Lock_loop fuel _ m (tested_world w)); cbn [world_after] in *;
      [exact H|exact H|apply writes_only_refl].
  - unfold Unlock. rewrite initialization_initialized by assumption. cbn [bind].
    pose proof (tryUnlock_writes_only m w) as H.
    destruct (tryUnlock m w) as [[err|] m1 w1|p m1 w1|]; cbn [bind world_after] in *;
      try exact H.
    destruct (is_ConditionalCheckFailed err); exact H.
Qed.

Lemma other_locks_untouched_witness :
  initialized holder = true /\
  writes_only (DDBTableName holder, Name holder) (db held_world)
    (db (world_after (Lock 3 holder held_world) held_world)) /\
  writes_only (DDBTableName holder, Name holder) (db held_world)
    (db (world_after (Unlock 3 holder held_world) held_world)).
Proof.
  assert (H1 : initialized holder = true) by (vm_compute; reflexivity).
  split; [exact H1|]. exact (other_locks_untouched 3 holder held_world H1).
Defined.
